(** * dash-trueTOL: the scoring pass and the cascading filters of [app_tol.py]

    A shallow embedding of the module-level code and the four Dash callbacks
    of [src/app_tol.py], and the theorems that settle the specification's
    claims about them.

    Numbers.  pandas stores the numeric columns as float64.  The type [num]
    below keeps the special values of that format (NaN, +inf, -inf) with the
    IEEE-754 rules the code meets (0/0, x/0, inf-inf, comparisons with NaN),
    and represents every finite value by an exact rational.  Rounding is not
    modelled.  There is one zero, which stands for +0.0: where the sign of a
    zero divisor would matter, the theorems take the divisor above zero.
    [float()] overflows to an infinity as CPython's does.  The arithmetic of
    the scoring pass has no overflow in the model; under the hypotheses of
    the theorems on scores the one quotient that can overflow in binary64 is
    Churn / Port Use, which line 32 clips to 1 either way.

    Strings.  A Python [str] is modelled by [string]; a character is a code
    point below 256. *)

From Stdlib Require Import List String Ascii Bool Arith ZArith QArith Qcanon Lia.
From Stdlib Require Import Permutation DecimalString Lqa.
From Stdlib Require PrimFloat.
Import ListNotations.

Close Scope Qc_scope.
Close Scope Q_scope.
Open Scope string_scope.
Open Scope list_scope.
Open Scope nat_scope.

(** ** Numbers *)

Module Num.

Inductive num : Type :=
| Fin (q : Qc)
| PInf
| NInf
| NaN.

Definition qc (n d : Z) : Qc := Q2Qc (Qmake n (Z.to_pos d)).

Definition zero : num := Fin 0%Qc.
Definition one : num := Fin 1%Qc.
Definition hundred : num := Fin (qc 100 1).
Definition thousand : num := Fin (qc 1000 1).

Definition is_nan (a : num) : bool :=
  match a with NaN => true | _ => false end.

Definition opp (a : num) : num :=
  match a with
  | Fin x => Fin (- x)%Qc
  | PInf => NInf
  | NInf => PInf
  | NaN => NaN
  end.

Definition add (a b : num) : num :=
  match a, b with
  | NaN, _ | _, NaN => NaN
  | Fin x, Fin y => Fin (x + y)%Qc
  | PInf, NInf | NInf, PInf => NaN
  | PInf, _ | _, PInf => PInf
  | NInf, _ | _, NInf => NInf
  end.

Definition sub (a b : num) : num := add a (opp b).

(** The sign of a finite value selects the infinity a product or quotient
    goes to. *)
Definition signed_inf (c : comparison) (pos : num) : num :=
  match c with
  | Eq => NaN
  | Gt => pos
  | Lt => opp pos
  end.

Definition mul (a b : num) : num :=
  match a, b with
  | NaN, _ | _, NaN => NaN
  | Fin x, Fin y => Fin (x * y)%Qc
  | Fin x, PInf | PInf, Fin x => signed_inf (x ?= 0)%Qc PInf
  | Fin x, NInf | NInf, Fin x => signed_inf (x ?= 0)%Qc NInf
  | PInf, PInf | NInf, NInf => PInf
  | PInf, NInf | NInf, PInf => NInf
  end.

(** True division as numpy performs it on float64: no exception, a zero
    divisor gives an infinity of the dividend's sign, and 0/0 and inf/inf
    give NaN. *)
Definition div (a b : num) : num :=
  match a, b with
  | NaN, _ | _, NaN => NaN
  | Fin x, Fin y =>
      if Qc_eq_dec y 0%Qc then signed_inf (x ?= 0)%Qc PInf
      else Fin (x / y)%Qc
  | Fin _, PInf | Fin _, NInf => zero
  | PInf, Fin y => match (y ?= 0)%Qc with Lt => NInf | _ => PInf end
  | NInf, Fin y => match (y ?= 0)%Qc with Lt => PInf | _ => NInf end
  | PInf, PInf | PInf, NInf | NInf, PInf | NInf, NInf => NaN
  end.

(** [a <= b]; every comparison with NaN is false. *)
Definition le (a b : num) : bool :=
  match a, b with
  | NaN, _ | _, NaN => false
  | NInf, _ => true
  | _, PInf => true
  | Fin x, Fin y => match (x ?= y)%Qc with Gt => false | _ => true end
  | _, _ => false
  end.

Definition ge (a b : num) : bool := le b a.

Definition eqb (a b : num) : bool :=
  match a, b with
  | Fin x, Fin y => if Qc_eq_dec x y then true else false
  | PInf, PInf | NInf, NInf => true
  | _, _ => false
  end.

(** The larger (smaller) of two values, a NaN being skipped: the step of
    [Series.max()] ([Series.min()]) with its default [skipna=True]. *)
Definition max2 (a b : num) : num :=
  match a, b with
  | NaN, _ => b
  | _, NaN => a
  | _, _ => if le a b then b else a
  end.

Definition min2 (a b : num) : num :=
  match a, b with
  | NaN, _ => b
  | _, NaN => a
  | _, _ => if le a b then a else b
  end.

(** [Series.clip(upper=u)]: values above [u] become [u]; NaN stays NaN. *)
Definition clip_upper (u a : num) : num :=
  match a with
  | NaN => NaN
  | _ => if le a u then a else u
  end.

(** A finite value that is at least zero. *)
Definition nonneg (a : num) : Prop :=
  match a with Fin x => (0 <= x)%Qc | _ => False end.

(** A finite value above zero. *)
Definition positive (a : num) : Prop :=
  match a with Fin x => (0 < x)%Qc | _ => False end.

End Num.

Import Num.

(** ** Python strings: [str.split()] and [float()] *)

Module PyStr.

(** [str.isspace] on one character, for code points below 256. *)
Definition is_space (c : ascii) : bool :=
  let n := nat_of_ascii c in
  ((9 <=? n) && (n <=? 13)) || ((28 <=? n) && (n <=? 32))
  || (n =? 133) || (n =? 160).

Definition flush (w : string) (k : list string) : list string :=
  if (w =? "")%string then k else w :: k.

(** [split_acc w s]: the words of [s], [w] being the word under way. *)
Fixpoint split_acc (w : string) (s : string) : list string :=
  match s with
  | EmptyString => flush w []
  | String c s' =>
      if is_space c then flush w (split_acc "" s')
      else split_acc (w ++ String c "")%string s'
  end.

(** [s.split()]: the maximal runs of non-whitespace characters, in order. *)
Definition split (s : string) : list string := split_acc "" s.

Definition is_digit (c : ascii) : bool :=
  let n := nat_of_ascii c in (48 <=? n) && (n <=? 57).

Definition digit_val (c : ascii) : Z := Z.of_nat (nat_of_ascii c - 48).

Definition lower (c : ascii) : ascii :=
  let n := nat_of_ascii c in
  if (65 <=? n) && (n <=? 90) then ascii_of_nat (n + 32) else c.

Fixpoint lower_string (s : string) : string :=
  match s with
  | EmptyString => EmptyString
  | String c s' => String (lower c) (lower_string s')
  end.

Fixpoint lstrip (s : string) : string :=
  match s with
  | String c s' => if is_space c then lstrip s' else s
  | EmptyString => EmptyString
  end.

Fixpoint rev_string (acc s : string) : string :=
  match s with
  | EmptyString => acc
  | String c s' => rev_string (String c acc) s'
  end.

Definition strip (s : string) : string :=
  rev_string "" (lstrip (rev_string "" (lstrip s))).

(** [digitpart ::= digit (["_"] digit)*].  [digit_run acc cnt s] reads the
    longest such prefix of [s], [cnt] digits of it being read already, and
    returns the decimal value of [acc] followed by the digits, their number,
    and the rest of [s]. *)
Fixpoint digit_run (acc : Z) (cnt : nat) (s : string) : Z * nat * string :=
  match s with
  | String c s' =>
      if is_digit c then digit_run (10 * acc + digit_val c) (S cnt) s'
      else if ((c =? "_")%char && (0 <? cnt))%bool then
        match s' with
        | String d s'' =>
            if is_digit d then digit_run (10 * acc + digit_val d) (S cnt) s''
            else (acc, cnt, s)
        | EmptyString => (acc, cnt, s)
        end
      else (acc, cnt, s)
  | EmptyString => (acc, cnt, s)
  end.

(** [exponent ::= ("e" | "E") [sign] digitpart], or nothing. *)
Definition exponent (s : string) : option (Z * string) :=
  match s with
  | String c s' =>
      if ((c =? "e") || (c =? "E"))%char then
        let '(neg, s'') :=
          match s' with
          | String "-" t => (true, t)
          | String "+" t => (false, t)
          | _ => (false, s')
          end in
        let '(e, n, r) := digit_run 0 0 s'' in
        if (0 <? n) then Some (if neg then (- e)%Z else e, r) else None
      else Some (0%Z, s)
  | EmptyString => Some (0%Z, s)
  end.

(** [m * 10^e] as an exact rational. *)
Definition scale10 (m e : Z) : Qc :=
  if (0 <=? e)%Z then Q2Qc (inject_Z (m * 10 ^ e))
  else Q2Qc (Qmake m (Z.to_pos (10 ^ (- e)))).

(** [floatnumber ::= number [exponent]] with
    [number ::= [digitpart] "." digitpart | digitpart ["."]];
    the whole string has to be consumed. *)
Definition floatnumber (s : string) : option Qc :=
  let '(iv, ic, r1) := digit_run 0 0 s in
  let '(fv, fc, r2) :=
    match r1 with
    | String "." t => digit_run iv 0 t
    | _ => (iv, 0, r1)
    end in
  if (0 <? ic + fc) then
    match exponent r2 with
    | Some (e, EmptyString) => Some (scale10 fv (e - Z.of_nat fc))
    | _ => None
    end
  else None.

(** The least magnitude that [float()] rounds to an infinity: half-way
    between the largest double, 2^1024 - 2^971, and 2^1024. *)
Definition overflow_threshold : Z := (2 ^ 1024 - 2 ^ 970)%Z.

(** A number that is not negative, as [float()] delivers it: an infinity
    from the threshold on, else the number (its rounding is not modelled). *)
Definition overflow (q : Qc) : num :=
  if Qle_bool (inject_Z overflow_threshold) q then PInf else Fin q.

Definition absfloatvalue (s : string) : option num :=
  let l := lower_string s in
  if ((l =? "inf") || (l =? "infinity"))%string then Some PInf
  else if (l =? "nan")%string then Some NaN
  else option_map overflow (floatnumber s).

(** [float(s)] for a string [s]; [None] stands for [ValueError]. *)
Definition float (s : string) : option num :=
  match strip s with
  | String "-" t => option_map opp (absfloatvalue t)
  | String "+" t => absfloatvalue t
  | t => absfloatvalue t
  end.

End PyStr.

(** ** The data frame

    A cell of a text column is a string, or missing (pandas stores NaN
    there).  A missing cell of a numeric column is the number [NaN]. *)

Inductive cell : Type :=
| Str (s : string)
| Missing.

Definition cell_eqb (a b : cell) : bool :=
  match a, b with
  | Str s, Str t => (s =? t)%string
  | Missing, Missing => true
  | _, _ => false
  end.

(** One line of the CSV file as [read_csv] delivers it: the columns the code
    computes with.  (The file has more columns, shown in the map's tooltip
    only.) *)
Record RawRow : Type := mkRawRow {
  Province : cell;
  District : cell;
  Sub_district : cell;
  Happy_Block : cell;
  Household : num;
  Install : num;
  Churn : num;
  Port_Use : num;
  Port_Utilization : num;    (* 'Port Utilization (%)' *)
  Market_Share_True : num;   (* 'Market Share True (%)' *)
  True_Speed : cell;
  Net_Add : num
}.

(** A row of [data] after the preprocessing block: the loaded columns and
    the six columns lines 30-46 assign ([S] and [I] being taken in Rocq,
    the five factor columns carry the prefix [fac_]). *)
Record Row : Type := mkRow {
  base : RawRow;
  fac_H : num;               (* 'H' *)
  fac_I : num;               (* 'I' *)
  fac_1_C : num;             (* '1-C' *)
  fac_M : num;               (* 'M' *)
  fac_S : num;               (* 'S' *)
  Potential_Score : num      (* 'Potential Score' *)
}.

(** ** Series operations *)

Section Series.

Context {A B C : Type}.

(** An elementwise operation on two Series of one frame. *)
Fixpoint zip_with (f : A -> B -> C) (a : list A) (b : list B) : list C :=
  match a, b with
  | x :: a', y :: b' => f x y :: zip_with f a' b'
  | _, _ => []
  end.

(** [Series.apply(f)] for an [f] that may raise: the first exception ends
    the pass. *)
Fixpoint apply_series (f : A -> option B) (a : list A) : option (list B) :=
  match a with
  | [] => Some []
  | x :: a' =>
      match f x with
      | None => None
      | Some y =>
          match apply_series f a' with
          | None => None
          | Some ys => Some (y :: ys)
          end
      end
  end.

End Series.

(** [Series.max()] and [Series.min()]: NaN is skipped; the result is NaN
    when nothing else is there. *)
Definition series_max (c : list num) : num := fold_right max2 NaN c.
Definition series_min (c : list num) : num := fold_right min2 NaN c.

Definition series_div_scalar (c : list num) (m : num) : list num :=
  map (fun x => div x m) c.

Definition series_mul_scalar (c : list num) (m : num) : list num :=
  map (fun x => mul x m) c.

Definition scalar_mul_series (w : num) (c : list num) : list num :=
  map (fun x => mul w x) c.

Definition scalar_sub_series (a : num) (c : list num) : list num :=
  map (fun x => sub a x) c.

Definition series_div (a b : list num) : list num := zip_with div a b.
Definition series_add (a b : list num) : list num := zip_with add a b.

Definition series_clip_upper (u : num) (c : list num) : list num :=
  map (clip_upper u) c.

(** ** The preprocessing block (lines 24-50) *)

Definition W1 : num := Fin (qc 40 100).
Definition W2 : num := Fin (qc 25 100).
Definition W3 : num := Fin (qc 20 100).
Definition W4 : num := Fin (qc 5 100).
Definition W5 : num := Fin (qc 10 100).

(** [lambda x: float(x.split()[0]) / 1000] (line 34).  [None] stands for the
    exception raised on a missing cell (AttributeError), a cell without a
    word (IndexError) or a first word that is no number (ValueError). *)
Definition speed (x : cell) : option num :=
  match x with
  | Missing => None
  | Str s =>
      match PyStr.split s with
      | [] => None
      | tok :: _ =>
          match PyStr.float tok with
          | None => None
          | Some v => Some (div v thousand)
          end
      end
  end.

Definition col_H (data : list RawRow) : list num :=
  series_div_scalar (map Household data) (series_max (map Household data)).

Definition col_I (data : list RawRow) : list num :=
  series_div_scalar (map Install data) (series_max (map Install data)).

Definition col_1_C (data : list RawRow) : list num :=
  scalar_sub_series one
    (series_clip_upper one (series_div (map Churn data) (map Port_Use data))).

Definition col_M (data : list RawRow) : list num :=
  series_div_scalar (map Market_Share_True data)
                    (series_max (map Market_Share_True data)).

Definition col_S (data : list RawRow) : option (list num) :=
  apply_series speed (map True_Speed data).

(** Lines 37-43: the weighted sum, the additions associated to the left as
    Python evaluates them. *)
Definition weighted_sum (h i c m s : list num) : list num :=
  series_add
    (series_add
       (series_add
          (series_add (scalar_mul_series W1 h) (scalar_mul_series W2 i))
          (scalar_mul_series W3 c))
       (scalar_mul_series W4 m))
    (scalar_mul_series W5 s).

(** Line 46. *)
Definition normalize (p : list num) : list num :=
  series_mul_scalar (series_div_scalar p (series_max p)) hundred.

(** The frame with its six new columns. *)
Fixpoint assemble (data : list RawRow) (h i c m s p : list num) : list Row :=
  match data, h, i, c, m, s, p with
  | d :: data', x1 :: h', x2 :: i', x3 :: c', x4 :: m', x5 :: s', x6 :: p' =>
      mkRow d x1 x2 x3 x4 x5 x6 :: assemble data' h' i' c' m' s' p'
  | _, _, _, _, _, _, _ => []
  end.

(** The column 'Potential Score' as line 37 assigns it, before line 46
    overwrites it. *)
Definition raw_scores (data : list RawRow) : option (list num) :=
  match col_S data with
  | None => None
  | Some s =>
      Some (weighted_sum (col_H data) (col_I data) (col_1_C data) (col_M data) s)
  end.

(** Lines 28-50, on a frame that has the columns of [RawRow] with their
    types, where only line 34 can raise.  [None]: an exception was raised,
    the diagnostic is printed and the process exits. *)
Definition preprocess (data : list RawRow) : option (list Row) :=
  let h := col_H data in
  let i := col_I data in
  let c := col_1_C data in
  let m := col_M data in
  match col_S data with
  | None => None
  | Some s =>
      let p := weighted_sum h i c m s in
      Some (assemble data h i c m s (normalize p))
  end.

(** ** The callbacks (lines 117-221) *)

(** The value of a dropdown as Dash hands it to a callback: [None] while
    nothing is selected. *)
Definition selection : Type := option string.

(** [if v:] on such a value: [None] and the empty string are false. *)
Definition truthy (v : selection) : bool :=
  match v with
  | Some s => negb (s =? "")%string
  | None => false
  end.

(** The value of a [RangeSlider]: [[lo, hi]]. *)
Definition range : Type := (num * num)%type.

(** A loaded column of the preprocessed frame. *)
Definition get {A : Type} (f : RawRow -> A) (r : Row) : A := f (base r).

(** [df[df[col] == v]]: a missing cell equals no string. *)
Definition select_eq (col : Row -> cell) (v : string) (df : list Row) : list Row :=
  filter (fun r => cell_eqb (col r) (Str v)) df.

(** [if v: df = df[df[col] == v]]. *)
Definition narrow (col : Row -> cell) (v : selection) (df : list Row) : list Row :=
  match v with
  | Some s => if truthy v then select_eq col s df else df
  | None => df
  end.

(** [Series.unique()]: the values in order of first appearance, one walk
    through the column with the table of the values met so far; all missing
    cells count as one value. *)
Fixpoint unique_from (seen : list cell) (c : list cell) : list cell :=
  match c with
  | [] => []
  | x :: c' =>
      if existsb (cell_eqb x) seen then unique_from seen c'
      else x :: unique_from (x :: seen) c'
  end.

Definition unique (c : list cell) : list cell := unique_from [] c.

(** [{'label': v, 'value': v}]. *)
Record dropdown_option : Type := mkOption {
  label : cell;
  value : cell
}.

Definition options_of (c : list cell) : list dropdown_option :=
  map (fun v => mkOption v v) (unique c).

(** Lines 121-125. *)
Definition update_district_filter (data : list Row)
    (selected_province : selection) : list dropdown_option :=
  match selected_province with
  | Some p =>
      if truthy selected_province then
        let filtered := select_eq (get Province) p data in
        options_of (map (get District) filtered)
      else []
  | None => []
  end.

(** Lines 132-138. *)
Definition update_subdistrict_filter (data : list Row)
    (selected_province selected_district : selection) : list dropdown_option :=
  let filtered := data in
  let filtered := narrow (get Province) selected_province filtered in
  let filtered := narrow (get District) selected_district filtered in
  options_of (map (get Sub_district) filtered).

(** Lines 146-154. *)
Definition update_happyblock_filter (data : list Row)
    (selected_province selected_district selected_subdistrict : selection)
    : list dropdown_option :=
  let filtered := data in
  let filtered := narrow (get Province) selected_province filtered in
  let filtered := narrow (get District) selected_district filtered in
  let filtered := narrow (get Sub_district) selected_subdistrict filtered in
  options_of (map (get Happy_Block) filtered).

(** The mask of lines 179-188; [&] is the elementwise conjunction. *)
Definition range_mask (net_add_range potential_range utilization_range
                       market_share_range : range) (r : Row) : bool :=
  ge (get Net_Add r) (fst net_add_range)
  && le (get Net_Add r) (snd net_add_range)
  && ge (Potential_Score r) (fst potential_range)
  && le (Potential_Score r) (snd potential_range)
  && ge (get Port_Utilization r) (fst utilization_range)
  && le (get Port_Utilization r) (snd utilization_range)
  && ge (get Market_Share_True r) (fst market_share_range)
  && le (get Market_Share_True r) (snd market_share_range).

(** Lines 167-188: the frame [filtered_data] that [update_map] hands to
    [scatter_mapbox]. *)
Definition update_map (data : list Row)
    (selected_province selected_district selected_subdistrict
     selected_happyblock : selection)
    (net_add_range potential_range utilization_range market_share_range : range)
    : list Row :=
  let filtered_data := data in
  let filtered_data := narrow (get Province) selected_province filtered_data in
  let filtered_data := narrow (get District) selected_district filtered_data in
  let filtered_data := narrow (get Sub_district) selected_subdistrict filtered_data in
  let filtered_data := narrow (get Happy_Block) selected_happyblock filtered_data in
  filter (range_mask net_add_range potential_range utilization_range
                     market_share_range) filtered_data.

(** The initial values of the four sliders (lines 85-108). *)
Definition default_net_add_range (data : list Row) : range :=
  (series_min (map (get Net_Add) data), series_max (map (get Net_Add) data)).

Definition default_percent_range : range := (zero, hundred).

(** ** The callbacks on the shared frame

    [data] is one module-level object that every callback reads.  Here the
    frames live in a heap, a callback gets the address of [data], and each
    pandas operation of the callbacks ([copy], indexing by a mask) writes its
    result to a new address, as pandas does. *)

Module Shared.

Definition ref : Type := nat.
Definition heap : Type := list (list Row).
Definition M (A : Type) : Type := heap -> A * heap.

Definition ret {A : Type} (a : A) : M A := fun h => (a, h).

Definition bind {A B : Type} (m : M A) (k : A -> M B) : M B :=
  fun h => let (a, h') := m h in k a h'.

Notation "x <- m ;; k" := (bind m (fun x => k))
  (at level 61, m at next level, right associativity).

Definition read (r : ref) : M (list Row) := fun h => (nth r h [], h).

Definition new (df : list Row) : M ref := fun h => (List.length h, h ++ [df]).

(** [df.copy()]. *)
Definition copy (r : ref) : M ref := df <- read r ;; new df.

(** [df[df[col] == v]]. *)
Definition index_eq (col : Row -> cell) (v : string) (r : ref) : M ref :=
  df <- read r ;; new (select_eq col v df).

(** [df[mask]] for a mask computed from the rows of [df]. *)
Definition index_mask (mask : Row -> bool) (r : ref) : M ref :=
  df <- read r ;; new (filter mask df).

(** [[{'label': x, 'value': x} for x in df[col].unique()]]. *)
Definition options (col : Row -> cell) (r : ref) : M (list dropdown_option) :=
  df <- read r ;; ret (options_of (map col df)).

Definition narrow (col : Row -> cell) (v : selection) (r : ref) : M ref :=
  match v with
  | Some s => if truthy v then index_eq col s r else ret r
  | None => ret r
  end.

Definition update_district_filter (data : ref) (selected_province : selection)
    : M (list dropdown_option) :=
  match selected_province with
  | Some p =>
      if truthy selected_province then
        filtered <- index_eq (get Province) p data ;;
        options (get District) filtered
      else ret []
  | None => ret []
  end.

Definition update_subdistrict_filter (data : ref)
    (selected_province selected_district : selection)
    : M (list dropdown_option) :=
  filtered <- copy data ;;
  filtered <- narrow (get Province) selected_province filtered ;;
  filtered <- narrow (get District) selected_district filtered ;;
  options (get Sub_district) filtered.

Definition update_happyblock_filter (data : ref)
    (selected_province selected_district selected_subdistrict : selection)
    : M (list dropdown_option) :=
  filtered <- copy data ;;
  filtered <- narrow (get Province) selected_province filtered ;;
  filtered <- narrow (get District) selected_district filtered ;;
  filtered <- narrow (get Sub_district) selected_subdistrict filtered ;;
  options (get Happy_Block) filtered.

Definition update_map (data : ref)
    (selected_province selected_district selected_subdistrict
     selected_happyblock : selection)
    (net_add_range potential_range utilization_range market_share_range : range)
    : M (list Row) :=
  filtered_data <- copy data ;;
  filtered_data <- narrow (get Province) selected_province filtered_data ;;
  filtered_data <- narrow (get District) selected_district filtered_data ;;
  filtered_data <- narrow (get Sub_district) selected_subdistrict filtered_data ;;
  filtered_data <- narrow (get Happy_Block) selected_happyblock filtered_data ;;
  filtered_data <- index_mask (range_mask net_add_range potential_range
                                 utilization_range market_share_range)
                              filtered_data ;;
  read filtered_data.

(** One interaction: a callback with its inputs. *)
Inductive query : Type :=
| DistrictOptions (p : selection)
| SubdistrictOptions (p d : selection)
| HappyBlockOptions (p d s : selection)
| MapFigure (p d s h : selection) (na ps ut ms : range).

Inductive answer : Type :=
| Options (l : list dropdown_option)
| Frame (df : list Row).

Definition run (data : ref) (q : query) : M answer :=
  match q with
  | DistrictOptions p =>
      l <- update_district_filter data p ;; ret (Options l)
  | SubdistrictOptions p d =>
      l <- update_subdistrict_filter data p d ;; ret (Options l)
  | HappyBlockOptions p d s =>
      l <- update_happyblock_filter data p d s ;; ret (Options l)
  | MapFigure p d s h na ps ut ms =>
      df <- update_map data p d s h na ps ut ms ;; ret (Frame df)
  end.

(** The callbacks run one after the other (one worker, no threads). *)
Fixpoint run_all (data : ref) (qs : list query) : M (list answer) :=
  match qs with
  | [] => ret []
  | q :: qs' =>
      a <- run data q ;;
      l <- run_all data qs' ;;
      ret (a :: l)
  end.

End Shared.

(** What the same query gives on a frame passed as a value. *)
Definition answer_of (df : list Row) (q : Shared.query) : Shared.answer :=
  match q with
  | Shared.DistrictOptions p => Shared.Options (update_district_filter df p)
  | Shared.SubdistrictOptions p d =>
      Shared.Options (update_subdistrict_filter df p d)
  | Shared.HappyBlockOptions p d s =>
      Shared.Options (update_happyblock_filter df p d s)
  | Shared.MapFigure p d s h na ps ut ms =>
      Shared.Frame (update_map df p d s h na ps ut ms)
  end.

(** ** The loader (lines 5-22) *)

Module Loader.

(** The exceptions [read_csv] can leave with, as the two [except] clauses
    tell them apart, with their text. *)
Inductive exn : Type :=
| ParserError (msg : string)       (* pd.errors.ParserError *)
| OtherException (msg : string).   (* any other subclass of Exception *)

(** [print(a, e)]. *)
Definition print2 (a e : string) : string := (a ++ " " ++ e)%string.

(** Lines 7-22, as a function of what the call of [pd.read_csv] comes back
    with, a frame or an exception: what is printed, and [data] unless
    [exit()] was called. *)
Definition load {F : Type} (r : exn + F) : list string * option F :=
  match r with
  | inr data => (["Dataset loaded successfully."], Some data)
  | inl (ParserError e) =>
      ([print2 "ParserError while loading the dataset:" e], None)
  | inl (OtherException e) =>
      ([print2 "Unexpected error while loading the dataset:" e], None)
  end.




End Loader.

(** ** The specification's vocabulary

    The definitions of this part follow the words of the specification; the
    theorems below compare them with the code above. *)

(** The factor S of a row whose speed cell parses; NaN stands in otherwise. *)
Definition speed_or_nan (x : cell) : num :=
  match speed x with Some v => v | None => NaN end.

(** Every 'True Speed' cell of the frame parses: line 34 raises nothing. *)
Definition speeds_parse (data : list RawRow) : Prop :=
  Forall (fun d => speed (True_Speed d) <> None) data.

(** The derived fields of section 3 of the specification, row by row. *)
Module Spec.

Definition H (data : list RawRow) (d : RawRow) : num :=
  div (Household d) (series_max (map Household data)).

Definition I (data : list RawRow) (d : RawRow) : num :=
  div (Install d) (series_max (map Install data)).

Definition RawChurnRatio (d : RawRow) : num :=
  clip_upper one (div (Churn d) (Port_Use d)).

Definition one_minus_C (d : RawRow) : num := sub one (RawChurnRatio d).

Definition M (data : list RawRow) (d : RawRow) : num :=
  div (Market_Share_True d) (series_max (map Market_Share_True data)).

Definition S (d : RawRow) : num := speed_or_nan (True_Speed d).

Definition PotentialScoreRaw (data : list RawRow) (d : RawRow) : num :=
  add (add (add (add (mul W1 (H data d)) (mul W2 (I data d)))
                (mul W3 (one_minus_C d)))
           (mul W4 (M data d)))
      (mul W5 (S d)).

Definition PotentialScore (data : list RawRow) (d : RawRow) : num :=
  mul (div (PotentialScoreRaw data d)
           (series_max (map (PotentialScoreRaw data) data)))
      hundred.

Definition row (data : list RawRow) (d : RawRow) : Row :=
  mkRow d (H data d) (I data d) (one_minus_C d) (M data d) (S d)
        (PotentialScore data d).

End Spec.

(** A ratio capped at 1.0. *)
Definition cap1 (x : Qc) : Qc := if Qclt_le_dec 1 x then 1%Qc else x.

(** The inputs of a row's score are finite and at least zero. *)
Definition nonneg_inputs (d : RawRow) : Prop :=
  nonneg (Household d) /\ nonneg (Install d) /\ nonneg (Churn d)
  /\ nonneg (Port_Use d) /\ nonneg (Market_Share_True d)
  /\ exists s, speed (True_Speed d) = Some s /\ nonneg s.

(** The row's 'Potential Score' is a number of [0, 100]. *)
Definition score_in_range (r : Row) : Prop :=
  exists q, Potential_Score r = Fin q /\ (0 <= q <= qc 100 1)%Qc.

(** No character of [s] is whitespace. *)
Fixpoint no_space (s : string) : bool :=
  match s with
  | EmptyString => true
  | String c s' => negb (PyStr.is_space c) && no_space s'
  end.

(** An equality constraint on a column: unset (nothing selected), it
    excludes no row. *)
Definition eq_constraint (col : Row -> cell) (v : selection) (r : Row) : bool :=
  match v with
  | Some s => if truthy v then cell_eqb (col r) (Str s) else true
  | None => true
  end.

(** A range constraint [[lo, hi]] on a value. *)
Definition in_range (x : num) (rg : range) : bool :=
  ge x (fst rg) && le x (snd rg).

(** The conjunction of the four equality and the four range constraints. *)
Definition matches (p d s h : selection) (na ps ut ms : range) (r : Row) : bool :=
  eq_constraint (get Province) p r
  && eq_constraint (get District) d r
  && eq_constraint (get Sub_district) s r
  && eq_constraint (get Happy_Block) h r
  && in_range (get Net_Add r) na
  && in_range (Potential_Score r) ps
  && in_range (get Port_Utilization r) ut
  && in_range (get Market_Share_True r) ms.

(** The position of the first occurrence of [x] in [c] (the length of [c]
    when there is none). *)
Fixpoint index_of (x : cell) (c : list cell) : nat :=
  match c with
  | [] => 0
  | y :: c' => if cell_eqb x y then 0 else S (index_of x c')
  end.

(** [out] lists the distinct values of the column [c] in the order in which
    they first appear in [c]. *)
Definition first_seen_distinct (c out : list cell) : Prop :=
  NoDup out
  /\ (forall x, In x out <-> In x c)
  /\ (forall i j x y, i < j -> nth_error out i = Some x ->
        nth_error out j = Some y -> index_of x c < index_of y c).

(** [opts] is the option list of the column [c]: one option per distinct
    value, its label being its value. *)
Definition option_list_of (c : list cell) (opts : list dropdown_option) : Prop :=
  map label opts = map value opts /\ first_seen_distinct c (map value opts).

(** The selection [v] of the column [col] is set and names a value that no
    row has among the rows of [data] that satisfy [above], the constraints of
    the levels above [col]. *)
Definition stale (data : list Row) (above : Row -> bool) (col : Row -> cell)
    (v : selection) : Prop :=
  truthy v = true
  /\ forall r, In r data -> above r = true -> eq_constraint col v r = false.

Definition above_district (p : selection) (r : Row) : bool :=
  eq_constraint (get Province) p r.

Definition above_subdistrict (p d : selection) (r : Row) : bool :=
  above_district p r && eq_constraint (get District) d r.

Definition above_happyblock (p d s : selection) (r : Row) : bool :=
  above_subdistrict p d r && eq_constraint (get Sub_district) s r.

Definition stale_at_province (data : list Row) (p : selection) : Prop :=
  stale data (fun _ => true) (get Province) p.

Definition stale_at_district (data : list Row) (p d : selection) : Prop :=
  stale data (above_district p) (get District) d.

Definition stale_at_subdistrict (data : list Row) (p d s : selection) : Prop :=
  stale data (above_subdistrict p d) (get Sub_district) s.

Definition stale_at_happyblock (data : list Row) (p d s h : selection) : Prop :=
  stale data (above_happyblock p d s) (get Happy_Block) h.

(** One of the four filtered metrics of the row is NaN. *)
Definition has_nan_metric (r : Row) : bool :=
  is_nan (get Net_Add r) || is_nan (Potential_Score r)
  || is_nan (get Port_Utilization r) || is_nan (get Market_Share_True r).

(** [h'] holds every object of [h], at its address, and maybe more. *)
Definition extends (h h' : Shared.heap) : Prop := exists ext, h' = h ++ ext.

(** The frame at the address [r]. *)
Definition frame_at (h : Shared.heap) (r : Shared.ref) (df : list Row) : Prop :=
  nth_error h r = Some df.

(** [m], started on [h], ends with a value and a heap that satisfy [Q]. *)
Definition ends {A : Type} (h : Shared.heap) (m : Shared.M A)
    (Q : A -> Shared.heap -> Prop) : Prop :=
  Q (fst (m h)) (snd (m h)).

(** ** A small dataset *)

Definition mk (p d s b : string) (hh inst ch pu ut ms : Z) (sp : string)
    (na : Z) : RawRow :=
  mkRawRow (Str p) (Str d) (Str s) (Str b)
           (Fin (qc hh 1)) (Fin (qc inst 1)) (Fin (qc ch 1)) (Fin (qc pu 1))
           (Fin (qc ut 1)) (Fin (qc ms 1)) (Str sp) (Fin (qc na 1)).

Definition row_a : RawRow := mk "A" "D1" "S1" "B1" 100 10 1 10 50 30 "850 Mbps" 3.
Definition row_b : RawRow := mk "A" "D2" "S2" "B2" 50 20 5 2 80 60 "1200 Mbps" (-2).

(** No port in use and no churn. *)
Definition row_c : RawRow := mk "B" "D3" "S3" "B3" 80 5 0 0 10 45 "1000 Mbps" 7.

(** No household. *)
Definition row_z : RawRow := mk "B" "D4" "S4" "B4" 0 5 1 4 10 45 "1000 Mbps" 7.

Definition example_data : list RawRow := [row_a; row_b].
Definition degenerate_data : list RawRow := [row_a; row_c].

Definition example_rows : list Row := map (Spec.row example_data) example_data.

Definition degenerate_rows : list Row :=
  map (Spec.row degenerate_data) degenerate_data.

(** ** The layout (lines 56-114) *)

Module Layout.

(** [int(x)] of a float: the integer towards zero; [None] stands for the
    ValueError (NaN) or OverflowError (an infinity) it raises otherwise. *)
Definition py_int (x : num) : option Z :=
  match x with
  | Fin q => Some (Z.quot (Qnum q) (Zpos (Qden q)))
  | _ => None
  end.

(** [range(start, stop, step)] for a step above zero: its length as CPython
    computes it, and the items [start + i*step]. *)
Definition py_range (start stop step : Z) : list Z :=
  if (start <? stop)%Z then
    map (fun i => (start + Z.of_nat i * step)%Z)
        (seq 0 (Z.to_nat ((stop - start - 1) / step + 1)))
  else [].

(** [str(i)] of an integer. *)
Definition py_str (i : Z) : string := NilZero.string_of_int (Z.to_int i).

(** A [dcc.RangeSlider]: its bounds, its marks (a dict, in insertion order)
    and its initial value; [step] is 1 on all four. *)
Record RangeSlider : Type := mkSlider {
  slider_min : num;
  slider_max : num;
  marks : list (Z * string);
  slider_value : range
}.

(** Lines 83-88.  [None]: [int()] raised, outside any [try]. *)
Definition net_add_slider (data : list Row) : option RangeSlider :=
  let lo := series_min (map (get Net_Add) data) in
  let hi := series_max (map (get Net_Add) data) in
  match py_int lo, py_int hi with
  | Some a, Some b =>
      Some (mkSlider lo hi
              (map (fun i => (i, py_str i)) (py_range a (b + 1) 10))
              (lo, hi))
  | _, _ => None
  end.

(** Lines 90-95 (with the label [f"{i}%"]) and lines 97-109 (with [str(i)]). *)
Definition percent_slider (suffix : string) : RangeSlider :=
  mkSlider zero hundred
    (map (fun i => (i, (py_str i ++ suffix)%string)) (py_range 0 101 10))
    (zero, hundred).

(** Line 64. *)
Definition province_options (data : list Row) : list dropdown_option :=
  options_of (map (get Province) data).

(** The controls of the layout that are computed from [data]. *)
Record controls : Type := mkControls {
  provinces : list dropdown_option;
  net_add : RangeSlider;
  potential : RangeSlider;
  utilization : RangeSlider;
  market_share : RangeSlider
}.

(** Lines 56-114.  [None]: line 86 raised. *)
Definition build (data : list Row) : option controls :=
  match net_add_slider data with
  | Some sl =>
      Some (mkControls (province_options data) sl (percent_slider "%")
              (percent_slider "") (percent_slider ""))
  | None => None
  end.

End Layout.

(** ** The start of the process (lines 5-114) *)

(** How the module's top-level code ends. *)
Inductive outcome : Type :=
| ExitedAtLoad (stdout : list string)           (* [exit()], line 19 or 22 *)
| ExitedAtPreprocessing (stdout : list string)  (* line 49's message, then
                                                   [exit()] *)
| RaisedInLayout (stdout : list string)         (* an exception of lines
                                                   56-114, caught nowhere *)
| Serving (stdout : list string) (data : list Row) (layout : Layout.controls).

(** The top-level code, from what [read_csv] comes back with. *)
Definition startup (r : Loader.exn + list RawRow) : outcome :=
  match Loader.load r with
  | (out, None) => ExitedAtLoad out
  | (out, Some data) =>
      match preprocess data with
      | None => ExitedAtPreprocessing out
      | Some rows =>
          match Layout.build rows with
          | None => RaisedInLayout out
          | Some l => Serving out rows l
          end
      end
  end.

(** A selection [v0] that is unset, or is [v]. *)
Definition refines (v0 v : selection) : Prop := truthy v0 = false \/ v0 = v.

(** The range [rg'] lies within [rg]. *)
Definition within (rg' rg : range) : Prop :=
  le (fst rg) (fst rg') = true /\ le (snd rg') (snd rg) = true.

(** Every character of [s] is whitespace. *)
Fixpoint all_space (s : string) : bool :=
  match s with
  | EmptyString => true
  | String c s' => PyStr.is_space c && all_space s'
  end.

(** [s] without its whitespace characters. *)
Fixpoint drop_spaces (s : string) : string :=
  match s with
  | EmptyString => EmptyString
  | String c s' => if PyStr.is_space c then drop_spaces s'
                   else String c (drop_spaces s')
  end.

(** The value is a number of [0, 1]. *)
Definition in_unit_interval (a : num) : Prop :=
  exists q, a = Fin q /\ (0 <= q <= 1)%Qc.

(** The precondition of the amended C2: finite inputs at least zero, ports
    in use in every row, and a positive maximum for each normalised
    column. *)
Definition well_scaled (data : list RawRow) : Prop :=
  Forall nonneg_inputs data
  /\ Forall (fun d => positive (Port_Use d)) data
  /\ positive (series_max (map Household data))
  /\ positive (series_max (map Install data))
  /\ positive (series_max (map Market_Share_True data)).

(** The words of [l], one after the other. *)
Fixpoint concat_words (l : list string) : string :=
  match l with
  | [] => EmptyString
  | w :: l' => (w ++ concat_words l')%string
  end.

(** A row whose speed cell is blank, and a row below [row_a] in every
    factor. *)
Definition row_blank : RawRow := mk "A" "D1" "S1" "B1" 100 10 1 10 50 30 "  " 3.
Definition row_d : RawRow := mk "A" "D1" "S9" "B9" 50 5 1 2 20 15 "100 Mbps" 1.

Definition ranked_data : list RawRow := [row_a; row_d].
Definition ranked_rows : list Row := map (Spec.row ranked_data) ranked_data.

(** * Theorems *)

(** ** Rational arithmetic *)

Section QcFacts.
Local Open Scope Qc_scope.

Lemma Qc_this_mult (x y : Qc) : (this (x * y) == this x * this y)%Q.
Proof. unfold Qcmult, Q2Qc; cbn [this]. apply Qred_correct. Qed.

Lemma Qc_this_inv (x : Qc) : (this (/ x) == / this x)%Q.
Proof. unfold Qcinv, Q2Qc; cbn [this]. apply Qred_correct. Qed.

Lemma Qcinv_pos (y : Qc) : 0 < y -> 0 < / y.
Proof.
  unfold Qclt. intros Hy. rewrite Qc_this_inv.
  apply Qinv_lt_0_compat. exact Hy.
Qed.

Lemma Qcdiv_nonneg (x y : Qc) : 0 <= x -> 0 < y -> 0 <= x / y.
Proof.
  intros Hx Hy. unfold Qcdiv.
  rewrite <- (Qcmult_0_l (/ y)).
  apply Qcmult_le_compat_r; [exact Hx|].
  apply Qclt_le_weak, Qcinv_pos, Hy.
Qed.

Lemma Qcdiv_le_1 (x y : Qc) : 0 < y -> x <= y -> x / y <= 1.
Proof.
  intros Hy Hxy. unfold Qcdiv.
  rewrite <- (Qcmult_inv_r y) by (apply not_eq_sym, Qclt_not_eq, Hy).
  apply Qcmult_le_compat_r; [exact Hxy|].
  apply Qclt_le_weak, Qcinv_pos, Hy.
Qed.

Lemma Qcdiv_gt_1 (x y : Qc) : 0 < y -> y < x -> 1 < x / y.
Proof.
  intros Hy Hxy. unfold Qcdiv.
  rewrite <- (Qcmult_inv_r y) by (apply not_eq_sym, Qclt_not_eq, Hy).
  apply Qcmult_lt_compat_r; [apply Qcinv_pos, Hy | exact Hxy].
Qed.

Lemma Qcdiv_self (y : Qc) : 0 < y -> y / y = 1.
Proof.
  intros Hy. unfold Qcdiv.
  apply Qcmult_inv_r, not_eq_sym, Qclt_not_eq, Hy.
Qed.

Lemma Qcmult_nonneg (x y : Qc) : 0 <= x -> 0 <= y -> 0 <= x * y.
Proof.
  intros Hx Hy. rewrite <- (Qcmult_0_l y).
  apply Qcmult_le_compat_r; assumption.
Qed.

Lemma Qcplus_nonneg (x y : Qc) : 0 <= x -> 0 <= y -> 0 <= x + y.
Proof.
  intros Hx Hy. rewrite <- (Qcplus_0_l 0).
  apply Qcplus_le_compat; assumption.
Qed.

Lemma Qcle_plus_r (x y : Qc) : 0 <= y -> x <= x + y.
Proof.
  intros Hy. rewrite <- (Qcplus_0_r x) at 1.
  apply Qcplus_le_compat; [apply Qcle_refl | exact Hy].
Qed.

Lemma Qcminus_nonneg (x y : Qc) : y <= x -> 0 <= x - y.
Proof. intros Hxy. unfold Qcminus. exact (proj1 (Qcle_minus_iff y x) Hxy). Qed.

Lemma Qccompare_gt (x y : Qc) : y < x -> (x ?= y) = Gt.
Proof. intros Hxy. now apply Qcgt_alt. Qed.

End QcFacts.

(** ** The scoring pass, column by column and row by row *)

Lemma zip_with_map {X A B C : Type} (f : A -> B -> C) (g : X -> A)
    (h : X -> B) (l : list X) :
  zip_with f (map g l) (map h l) = map (fun x => f (g x) (h x)) l.
Proof. induction l as [|x l IH]; simpl; [reflexivity | now rewrite IH]. Qed.

Lemma apply_series_total {A B : Type} (f : A -> option B) (dflt : B)
    (l : list A) :
  Forall (fun x => f x <> None) l ->
  apply_series f l
  = Some (map (fun x => match f x with Some y => y | None => dflt end) l).
Proof.
  induction 1 as [|x l Hx _ IH]; simpl; [reflexivity|].
  destruct (f x); [|congruence]. now rewrite IH.
Qed.

Lemma apply_series_some {A B : Type} (f : A -> option B) (l : list A) (ys : list B) :
  apply_series f l = Some ys -> Forall (fun x => f x <> None) l.
Proof.
  revert ys; induction l as [|x l IH]; simpl; intros ys E; [constructor|].
  destruct (f x) eqn:Fx; [|discriminate].
  destruct (apply_series f l) eqn:Fl; [|discriminate].
  constructor; [congruence | eauto].
Qed.

Lemma assemble_map {X : Type} (l : list X) (b : X -> RawRow)
    (f1 f2 f3 f4 f5 f6 : X -> num) :
  assemble (map b l) (map f1 l) (map f2 l) (map f3 l) (map f4 l) (map f5 l) (map f6 l)
  = map (fun x => mkRow (b x) (f1 x) (f2 x) (f3 x) (f4 x) (f5 x) (f6 x)) l.
Proof. induction l as [|x l IH]; simpl; [reflexivity | now rewrite IH]. Qed.

Lemma col_S_total (data : list RawRow) :
  speeds_parse data -> col_S data = Some (map Spec.S data).
Proof.
  intros Hp. unfold col_S.
  rewrite (apply_series_total speed NaN).
  - now rewrite map_map.
  - now apply Forall_map.
Qed.

Lemma weighted_sum_rows (data : list RawRow) :
  weighted_sum (col_H data) (col_I data) (col_1_C data) (col_M data)
               (map Spec.S data)
  = map (Spec.PotentialScoreRaw data) data.
Proof.
  unfold weighted_sum, col_H, col_I, col_1_C, col_M, series_add,
    scalar_mul_series, series_div_scalar, scalar_sub_series,
    series_clip_upper, series_div.
  rewrite zip_with_map, !map_map.
  rewrite !zip_with_map. reflexivity.
Qed.

Lemma raw_scores_rows (data : list RawRow) :
  speeds_parse data ->
  raw_scores data = Some (map (Spec.PotentialScoreRaw data) data).
Proof.
  intros Hp. unfold raw_scores.
  now rewrite (col_S_total data Hp), weighted_sum_rows.
Qed.

Lemma preprocess_total (data : list RawRow) :
  speeds_parse data -> preprocess data = Some (map (Spec.row data) data).
Proof.
  intros Hp. unfold preprocess.
  rewrite (col_S_total data Hp), weighted_sum_rows.
  f_equal. unfold normalize, series_mul_scalar, series_div_scalar.
  rewrite map_map.
  unfold col_H, col_I, col_1_C, col_M, series_div_scalar, scalar_sub_series,
    series_clip_upper, series_div.
  rewrite zip_with_map, !map_map.
  rewrite <- (map_id data) at 1.
  rewrite assemble_map. reflexivity.
Qed.

Lemma preprocess_parses (data : list RawRow) (rows : list Row) :
  preprocess data = Some rows -> speeds_parse data.
Proof.
  unfold preprocess, col_S. intros E.
  destruct (apply_series speed (map True_Speed data)) as [s|] eqn:Es;
    [|discriminate].
  apply apply_series_some in Es.
  unfold speeds_parse. rewrite Forall_forall in *.
  intros d Hd. apply Es, in_map, Hd.
Qed.

Lemma preprocess_rows (data : list RawRow) (rows : list Row) :
  preprocess data = Some rows -> rows = map (Spec.row data) data.
Proof.
  intros E. pose proof (preprocess_parses data rows E) as Hp.
  rewrite (preprocess_total data Hp) in E. congruence.
Qed.


Section NumFacts.
Local Open Scope Qc_scope.

Lemma div_fin (x y : Qc) : 0 < y -> div (Fin x) (Fin y) = Fin (x / y).
Proof.
  intros Hy. unfold div.
  destruct (Qc_eq_dec y 0) as [E|_]; [|reflexivity].
  subst y. exfalso. revert Hy. apply Qcle_not_lt, Qcle_refl.
Qed.

Lemma le_fin (x y : Qc) : le (Fin x) (Fin y) = true <-> x <= y.
Proof.
  unfold le. rewrite Qcle_alt.
  destruct (x ?= y); split; intros; congruence.
Qed.

Lemma le_fin_false (x y : Qc) : le (Fin x) (Fin y) = false <-> y < x.
Proof.
  unfold le. split.
  - intros E. apply Qcgt_alt. destruct (x ?= y); congruence.
  - intros E. apply Qcgt_alt in E. now rewrite E.
Qed.

Lemma nonneg_fin (a : num) : nonneg a -> exists x, a = Fin x /\ 0 <= x.
Proof. destruct a; simpl; intros Ha; try contradiction. eauto. Qed.

Lemma positive_fin (a : num) : positive a -> exists x, a = Fin x /\ 0 < x.
Proof. destruct a; simpl; intros Ha; try contradiction. eauto. Qed.

(** The maximum of a non-empty column of finite values is one of them and
    bounds them all. *)
Lemma series_max_fin (l : list num) :
  (forall a, In a l -> exists x, a = Fin x) -> l <> [] ->
  exists m, series_max l = Fin m /\ In (Fin m) l
            /\ forall x, In (Fin x) l -> x <= m.
Proof.
  induction l as [|a t IH]; intros Hfin Hne; [congruence|].
  destruct (Hfin a (or_introl eq_refl)) as [x ->].
  destruct t as [|b t'].
  - exists x. simpl. repeat split; auto.
    intros y [E|[]]. injection E as <-. apply Qcle_refl.
  - destruct IH as (m & Hm & Hin & Hle).
    { intros c Hc. apply Hfin. now right. }
    { discriminate. }
    change (series_max (Fin x :: b :: t')) with (max2 (Fin x) (series_max (b :: t'))).
    rewrite Hm. unfold max2.
    destruct (le (Fin x) (Fin m)) eqn:E.
    + apply le_fin in E. exists m. repeat split; [now right|].
      intros y [Ey|Hy]; [injection Ey as <-; exact E | now apply Hle].
    + apply le_fin_false in E. exists x. repeat split; [now left|].
      intros y [Ey|Hy]; [injection Ey as <-; apply Qcle_refl|].
      apply Qcle_trans with m; [now apply Hle | now apply Qclt_le_weak].
Qed.

End NumFacts.

Section ChurnFactor.
Local Open Scope Qc_scope.

Lemma clip_one_fin (x : Qc) : clip_upper one (Fin x) = Fin (cap1 x).
Proof.
  unfold clip_upper, cap1, one. destruct (Qclt_le_dec 1 x) as [L|L].
  - now rewrite (proj2 (le_fin_false x 1) L).
  - now rewrite (proj2 (le_fin x 1) L).
Qed.

Lemma one_minus_cap1_nonneg (x : Qc) : 0 <= 1 - cap1 x.
Proof.
  apply Qcminus_nonneg. unfold cap1.
  destruct (Qclt_le_dec 1 x); [apply Qcle_refl | assumption].
Qed.

Lemma one_minus_C_fin (d : RawRow) (c p : Qc) :
  Churn d = Fin c -> Port_Use d = Fin p -> 0 < p ->
  Spec.one_minus_C d = Fin (1 - cap1 (c / p)).
Proof.
  unfold Spec.one_minus_C, Spec.RawChurnRatio. intros -> -> Hp.
  rewrite div_fin, clip_one_fin by assumption. reflexivity.
Qed.

(** C6.  For a row of the preprocessed frame whose Churn [c] is at least
    zero and whose Port Use [p] is above zero, the column '1-C' holds one minus
    the ratio c/p capped at 1; it is never negative, and it is zero when
    Churn exceeds Port Use. *)
Theorem churn_factor_clipped (data : list RawRow) (rows : list Row) (r : Row)
    (c p : Qc) :
  preprocess data = Some rows -> In r rows ->
  Churn (base r) = Fin c -> Port_Use (base r) = Fin p ->
  0 <= c -> 0 < p ->
  fac_1_C r = Fin (1 - cap1 (c / p))
  /\ nonneg (fac_1_C r)
  /\ (p < c -> fac_1_C r = zero).
Proof.
  intros E Hr Hc Hp Hc0 Hp0.
  rewrite (preprocess_rows data rows E) in Hr.
  apply in_map_iff in Hr. destruct Hr as (d & <- & _).
  simpl in *. rewrite (one_minus_C_fin d c p Hc Hp Hp0).
  split; [reflexivity|]. split.
  - simpl. apply one_minus_cap1_nonneg.
  - intros Hlt. unfold cap1.
    destruct (Qclt_le_dec 1 (c / p)) as [L|L].
    + reflexivity.
    + exfalso. revert L. apply Qclt_not_le. now apply Qcdiv_gt_1.
Qed.

End ChurnFactor.

Section ScoreBounds.
Local Open Scope Qc_scope.

Variable data : list RawRow.

Section Ratio.

Variable f : RawRow -> num.
Hypothesis f_nonneg : forall d, In d data -> nonneg (f d).
Hypothesis max_positive : positive (series_max (map f data)).

Lemma max_ratio_shape :
  exists m, series_max (map f data) = Fin m /\ 0 < m
            /\ (exists d, In d data /\ f d = Fin m)
            /\ forall d x, In d data -> f d = Fin x -> x <= m.
Proof.
  destruct (series_max_fin (map f data)) as (m & Hm & Hin & Hle).
  - intros a Ha. apply in_map_iff in Ha. destruct Ha as (d & <- & Hd).
    destruct (nonneg_fin _ (f_nonneg d Hd)) as (x & -> & _). eauto.
  - intros E. rewrite E in max_positive. exact max_positive.
  - exists m. split; [exact Hm|]. split.
    + rewrite Hm in max_positive. exact max_positive.
    + split.
      * apply in_map_iff in Hin. destruct Hin as (d & E & Hd). eauto.
      * intros d x Hd E. apply Hle. rewrite <- E. now apply in_map.
Qed.

Lemma max_ratio (d : RawRow) :
  In d data ->
  exists h, div (f d) (series_max (map f data)) = Fin h /\ 0 <= h.
Proof.
  intros Hd. destruct max_ratio_shape as (m & -> & Hm & _ & _).
  destruct (nonneg_fin _ (f_nonneg d Hd)) as (x & -> & Hx).
  exists (x / m). split; [now apply div_fin | now apply Qcdiv_nonneg].
Qed.

Lemma max_ratio_attained :
  exists d, In d data /\ div (f d) (series_max (map f data)) = Fin 1.
Proof.
  destruct max_ratio_shape as (m & -> & Hm & (d & Hd & E) & _).
  exists d. split; [exact Hd|].
  rewrite E, div_fin by exact Hm. now rewrite Qcdiv_self.
Qed.

End Ratio.

Lemma one_minus_C_nonneg (d : RawRow) :
  nonneg (Churn d) -> positive (Port_Use d) ->
  exists c, Spec.one_minus_C d = Fin c /\ 0 <= c.
Proof.
  intros Hc Hp.
  destruct (nonneg_fin _ Hc) as (c & Ec & Hc0).
  destruct (positive_fin _ Hp) as (p & Ep & Hp0).
  exists (1 - cap1 (c / p)). split.
  - now apply one_minus_C_fin.
  - apply one_minus_cap1_nonneg.
Qed.

Lemma weights_nonneg :
  0 <= qc 40 100 /\ 0 <= qc 25 100 /\ 0 <= qc 20 100 /\ 0 <= qc 5 100
  /\ 0 <= qc 10 100.
Proof. repeat split; unfold Qcle; vm_compute; discriminate. Qed.

Hypothesis inputs_nonneg : Forall nonneg_inputs data.
Hypothesis ports_in_use : Forall (fun d => positive (Port_Use d)) data.
Hypothesis household_positive : positive (series_max (map Household data)).
Hypothesis install_positive : positive (series_max (map Install data)).
Hypothesis share_positive : positive (series_max (map Market_Share_True data)).

Lemma inputs_parse : speeds_parse data.
Proof.
  unfold speeds_parse. rewrite Forall_forall in *. intros d Hd.
  destruct (inputs_nonneg d Hd) as (_ & _ & _ & _ & _ & s & E & _).
  congruence.
Qed.

Lemma raw_score_fin (d : RawRow) :
  In d data ->
  exists h r, Spec.H data d = Fin h /\ Spec.PotentialScoreRaw data d = Fin r
              /\ qc 40 100 * h <= r /\ 0 <= r.
Proof.
  intros Hd.
  rewrite Forall_forall in inputs_nonneg, ports_in_use.
  destruct (max_ratio Household) with (d := d) as (h & Eh & Hh); auto.
  { intros d' Hd'. apply (inputs_nonneg d' Hd'). }
  destruct (max_ratio Install) with (d := d) as (i & Ei & Hi); auto.
  { intros d' Hd'. apply (inputs_nonneg d' Hd'). }
  destruct (max_ratio Market_Share_True) with (d := d) as (m & Em & Hm); auto.
  { intros d' Hd'. apply (inputs_nonneg d' Hd'). }
  destruct (inputs_nonneg d Hd) as (_ & _ & Hc & Hp & _ & s & Es & Hs).
  destruct (one_minus_C_nonneg d Hc (ports_in_use d Hd)) as (c & Ec & Hc0).
  destruct (nonneg_fin _ Hs) as (s' & -> & Hs').
  destruct weights_nonneg as (H1 & H2 & H3 & H4 & H5).
  exists h.
  exists (qc 40 100 * h + qc 25 100 * i + qc 20 100 * c + qc 5 100 * m
          + qc 10 100 * s').
  split; [exact Eh|]. split.
  - unfold Spec.PotentialScoreRaw, Spec.H, Spec.I, Spec.M, Spec.S, speed_or_nan.
    fold (Spec.H data d). unfold Spec.H. rewrite Eh, Ei, Em, Ec, Es. reflexivity.
  - assert (Hsum : forall a b, 0 <= b -> qc 40 100 * h <= a ->
                               qc 40 100 * h <= a + b).
    { intros a b Hb Ha. apply Qcle_trans with a; [exact Ha|].
      now apply Qcle_plus_r. }
    assert (Hbase : qc 40 100 * h <= qc 40 100 * h + qc 25 100 * i
                    + qc 20 100 * c + qc 5 100 * m + qc 10 100 * s').
    { repeat apply Hsum; try (apply Qcmult_nonneg; assumption).
      apply Qcle_refl. }
    split; [exact Hbase|].
    apply Qcle_trans with (qc 40 100 * h); [|exact Hbase].
    now apply Qcmult_nonneg.
Qed.

Lemma raw_max_shape :
  exists mr, series_max (map (Spec.PotentialScoreRaw data) data) = Fin mr
    /\ 0 < mr
    /\ (exists d, In d data /\ Spec.PotentialScoreRaw data d = Fin mr)
    /\ forall d r, In d data -> Spec.PotentialScoreRaw data d = Fin r -> r <= mr.
Proof.
  destruct (max_ratio_attained Household) as (d1 & Hd1 & E1); auto.
  { intros d' Hd'. rewrite Forall_forall in inputs_nonneg.
    apply (inputs_nonneg d' Hd'). }
  destruct (series_max_fin (map (Spec.PotentialScoreRaw data) data))
    as (mr & Hmr & Hin & Hle).
  - intros a Ha. apply in_map_iff in Ha. destruct Ha as (d & <- & Hd).
    destruct (raw_score_fin d Hd) as (_ & r & _ & -> & _). eauto.
  - intros E. apply map_eq_nil in E. rewrite E in Hd1. exact Hd1.
  - exists mr. split; [exact Hmr|].
    assert (Hbound : forall d r, In d data ->
              Spec.PotentialScoreRaw data d = Fin r -> r <= mr).
    { intros d r Hd E. apply Hle. rewrite <- E. now apply in_map. }
    split; [|split; [|exact Hbound]].
    + destruct (raw_score_fin d1 Hd1) as (h & r & Eh & Er & Hr & _).
      unfold Spec.H in Eh. rewrite E1 in Eh. injection Eh as <-.
      apply Qclt_le_trans with r; [|now apply (Hbound d1)].
      apply Qclt_le_trans with (qc 40 100 * 1); [|exact Hr].
      unfold Qclt. vm_compute. reflexivity.
    + apply in_map_iff in Hin. destruct Hin as (d & E & Hd). eauto.
Qed.

Lemma score_bounded (d : RawRow) :
  In d data -> score_in_range (Spec.row data d).
Proof.
  intros Hd. destruct raw_max_shape as (mr & Emr & Hmr & _ & Hle).
  destruct (raw_score_fin d Hd) as (_ & r & _ & Er & _ & Hr).
  exists (r / mr * qc 100 1). split.
  - simpl. unfold Spec.PotentialScore.
    rewrite Emr, Er, div_fin by exact Hmr. reflexivity.
  - assert (H100 : 0 <= qc 100 1) by (unfold Qcle; vm_compute; discriminate).
    split.
    + apply Qcmult_nonneg; [now apply Qcdiv_nonneg | exact H100].
    + rewrite <- (Qcmult_1_l (qc 100 1)) at 2.
      apply Qcmult_le_compat_r; [|exact H100].
      apply Qcdiv_le_1; [exact Hmr | now apply (Hle d)].
Qed.

Lemma score_attained :
  exists d, In d data /\ Potential_Score (Spec.row data d) = hundred.
Proof.
  destruct raw_max_shape as (mr & Emr & Hmr & (d & Hd & Er) & _).
  exists d. split; [exact Hd|].
  simpl. unfold Spec.PotentialScore.
  rewrite Emr, Er, div_fin by exact Hmr.
  rewrite Qcdiv_self by exact Hmr. unfold hundred, mul.
  now rewrite Qcmult_1_l.
Qed.

End ScoreBounds.

(** C2, amended.  For a dataset whose Household, Install, Churn, Port Use,
    Market Share True and speed values are finite and at least zero, in
    which Port Use is above zero in every row, and in which the largest
    Household, Install and Market Share True are above zero,
    preprocessing succeeds, every row's 'Potential Score' lies in [0, 100]
    and some row's is exactly 100. *)
Theorem potential_score_bounds (data : list RawRow) :
  Forall nonneg_inputs data ->
  Forall (fun d => positive (Port_Use d)) data ->
  positive (series_max (map Household data)) ->
  positive (series_max (map Install data)) ->
  positive (series_max (map Market_Share_True data)) ->
  exists rows, preprocess data = Some rows
    /\ Forall score_in_range rows
    /\ Exists (fun r => Potential_Score r = hundred) rows.
Proof.
  intros Hn Hr Hh Hi Hm.
  exists (map (Spec.row data) data). split; [|split].
  - apply preprocess_total. exact (inputs_parse data Hn Hr).
  - apply Forall_map, Forall_forall. intros d Hd.
    now apply score_bounded.
  - destruct (score_attained data Hn Hr Hh Hi Hm) as (d & Hd & E).
    apply Exists_exists. exists (Spec.row data d).
    split; [now apply in_map | exact E].
Qed.

(** ** The speed cell *)

Section SpeedParsing.

Lemma append_snoc (w : string) (c : ascii) (s : string) :
  ((w ++ String c "") ++ s = w ++ String c s)%string.
Proof. induction w as [|a w IH]; simpl; [reflexivity | now rewrite IH]. Qed.

Lemma split_acc_word (tok w s : string) :
  no_space tok = true ->
  PyStr.split_acc w (tok ++ s) = PyStr.split_acc (w ++ tok) s.
Proof.
  revert w. induction tok as [|c tok IH]; simpl; intros w Hn.
  - f_equal. clear. induction w as [|a w IH]; simpl; [reflexivity | now rewrite <- IH].
  - apply andb_true_iff in Hn. destruct Hn as [Hc Hn].
    apply negb_true_iff in Hc. rewrite Hc, (IH _ Hn).
    now rewrite append_snoc.
Qed.

Lemma split_first_word (tok rest : string) (ws : ascii) :
  tok <> "" -> no_space tok = true -> PyStr.is_space ws = true ->
  PyStr.split (tok ++ String ws rest) = tok :: PyStr.split rest.
Proof.
  intros Hne Hn Hw. unfold PyStr.split.
  rewrite (split_acc_word tok "" _ Hn). simpl. rewrite Hw.
  unfold PyStr.flush. apply String.eqb_neq in Hne. now rewrite Hne.
Qed.

End SpeedParsing.

Lemma speed_first_token (tok rest : string) (ws : ascii) :
  tok <> "" -> no_space tok = true -> PyStr.is_space ws = true ->
  speed (Str (tok ++ String ws rest))
  = option_map (fun v => div v thousand) (PyStr.float tok).
Proof.
  intros Hne Hn Hw. unfold speed.
  rewrite (split_first_word tok rest ws Hne Hn Hw).
  destruct (PyStr.float tok); reflexivity.
Qed.

Lemma speed_850 : speed (Str "850 Mbps") = Some (Fin (qc 85 100)).
Proof. vm_compute. do 2 f_equal. apply Qc_is_canon. reflexivity. Qed.

Lemma speed_1200 : speed (Str "1200 Mbps") = Some (Fin (qc 12 10)).
Proof. vm_compute. do 2 f_equal. apply Qc_is_canon. reflexivity. Qed.

(** C7.  For a 'True Speed' cell that starts with a word [tok], followed by
    a whitespace character and anything at all, the factor S is [float(tok)]
    divided by 1000 (and the pass fails exactly when [float(tok)] does): what
    follows the first whitespace is ignored.  "850 Mbps" gives 0.85 and
    "1200 Mbps" gives 1.2. *)
Theorem speed_factor_first_token :
  (forall (tok rest : string) (ws : ascii),
     tok <> "" -> no_space tok = true -> PyStr.is_space ws = true ->
     speed (Str (tok ++ String ws rest))
     = option_map (fun v => div v thousand) (PyStr.float tok))
  /\ speed (Str "850 Mbps") = Some (Fin (qc 85 100))
  /\ speed (Str "1200 Mbps") = Some (Fin (qc 12 10)).
Proof.
  split; [exact speed_first_token|]. split; [exact speed_850 | exact speed_1200].
Qed.

(** The same two quotients in binary64, the format pandas computes in: the
    rounded quotient is the double that the literal 0.85 (1.2) denotes. *)
Module Binary64.
Import PrimFloat.

#[warnings="-inexact-float"]
Remark speed_values :
  PrimFloat.eqb (850 / 1000)%float 0.85%float = true
  /\ PrimFloat.eqb (1200 / 1000)%float 1.2%float = true.
Proof. split; reflexivity. Qed.

(** What the one zero of [num] leaves out.  With Churn 5 and Port Use -0.0
    binary64 gives the ratio -inf, which [clip(upper=1)] keeps, so that 1-C is
    +inf and the row's score inf/inf is NaN: the theorems on scores take
    Port Use above zero. *)
Remark negative_zero_divisor :
  PrimFloat.eqb (5 / neg_zero)%float neg_infinity = true
  /\ PrimFloat.ltb (5 / neg_zero)%float 1%float = true
  /\ PrimFloat.eqb (1 - 5 / neg_zero)%float infinity = true
  /\ PrimFloat.is_nan (infinity / infinity * 100)%float = true.
Proof. repeat split; reflexivity. Qed.

End Binary64.

(** ** The main filter *)

Section FilterFacts.

Lemma filter_filter {A : Type} (f g : A -> bool) (l : list A) :
  filter g (filter f l) = filter (fun x => f x && g x) l.
Proof.
  induction l as [|x l IH]; simpl; [reflexivity|].
  destruct (f x); simpl; [destruct (g x)|]; now rewrite IH.
Qed.

Lemma filter_all_true {A : Type} (l : list A) : filter (fun _ => true) l = l.
Proof. induction l as [|x l IH]; simpl; [reflexivity | now rewrite IH]. Qed.

Lemma filter_none {A : Type} (f : A -> bool) (l : list A) :
  (forall x, In x l -> f x = false) -> filter f l = [].
Proof.
  induction l as [|x l IH]; simpl; intros Hf; [reflexivity|].
  rewrite (Hf x (or_introl eq_refl)). apply IH. intros y Hy. apply Hf. now right.
Qed.

Lemma narrow_filter (col : Row -> cell) (v : selection) (df : list Row) :
  narrow col v df = filter (eq_constraint col v) df.
Proof.
  unfold narrow, eq_constraint, select_eq. destruct v as [s|].
  - destruct (truthy (Some s)); [reflexivity | now rewrite filter_all_true].
  - now rewrite filter_all_true.
Qed.

Lemma range_mask_in_range (na ps ut ms : range) (r : Row) :
  range_mask na ps ut ms r
  = in_range (get Net_Add r) na && in_range (Potential_Score r) ps
    && in_range (get Port_Utilization r) ut
    && in_range (get Market_Share_True r) ms.
Proof. unfold range_mask, in_range. now rewrite !andb_assoc. Qed.

Lemma update_map_filter (data : list Row) (p d s h : selection)
    (na ps ut ms : range) :
  update_map data p d s h na ps ut ms = filter (matches p d s h na ps ut ms) data.
Proof.
  unfold update_map. rewrite !narrow_filter, !filter_filter.
  apply filter_ext. intros r. unfold matches.
  now rewrite range_mask_in_range, !andb_assoc.
Qed.

Lemma in_range_fin (x lo hi : Qc) :
  in_range (Fin x) (Fin lo, Fin hi) = true <-> (lo <= x /\ x <= hi)%Qc.
Proof.
  unfold in_range, ge. simpl fst; simpl snd.
  now rewrite andb_true_iff, !le_fin.
Qed.

End FilterFacts.

(** C3.  The frame [update_map] draws holds exactly the rows of [data], in
    their order, that satisfy the conjunction of the equality constraints
    on Province, District, Sub-district and Happy Block (one that is not set
    excludes no row, one that is set keeps the rows with that very value)
    and of the four range constraints on Net Add, Potential Score, Port
    Utilization and Market Share True; a value is in the range [lo, hi] iff
    it is >= lo and <= hi, both ends included. *)
Theorem update_map_exact (data : list Row) (p d s h : selection)
    (na ps ut ms : range) :
  update_map data p d s h na ps ut ms = filter (matches p d s h na ps ut ms) data
  /\ (forall r, In r (update_map data p d s h na ps ut ms)
                <-> In r data /\ matches p d s h na ps ut ms r = true)
  /\ (forall x rg, in_range x rg = true
                   <-> ge x (fst rg) = true /\ le x (snd rg) = true)
  /\ (forall x lo hi, in_range (Fin x) (Fin lo, Fin hi) = true
                      <-> (lo <= x /\ x <= hi)%Qc)
  /\ (forall col v r, truthy v = false -> eq_constraint col v r = true)
  /\ (forall col v r, truthy (Some v) = true ->
        (eq_constraint col (Some v) r = true <-> col r = Str v)).
Proof.
  split; [apply update_map_filter|]. split; [|split; [|split; [|split]]].
  - intros r. rewrite update_map_filter. apply filter_In.
  - intros x rg. unfold in_range. apply andb_true_iff.
  - apply in_range_fin.
  - intros col v r Hv. unfold eq_constraint.
    destruct v as [t|]; [now rewrite Hv | reflexivity].
  - intros col v r Hv. unfold eq_constraint. rewrite Hv.
    destruct (col r) as [t|]; simpl.
    + rewrite String.eqb_eq. split; congruence.
    + split; discriminate.
Qed.

(** ** Option lists *)

Section UniqueFacts.

Lemma cell_eqb_eq (a b : cell) : cell_eqb a b = true <-> a = b.
Proof.
  destruct a as [s|], b as [t|]; simpl; split; intros E;
    try discriminate; try reflexivity.
  - apply String.eqb_eq in E. now subst.
  - injection E as ->. apply String.eqb_refl.
Qed.

Lemma cell_eqb_refl (a : cell) : cell_eqb a a = true.
Proof. now apply cell_eqb_eq. Qed.

Lemma cell_eqb_neq (a b : cell) : cell_eqb a b = false <-> a <> b.
Proof.
  split.
  - intros E H. apply cell_eqb_eq in H. congruence.
  - intros H. destruct (cell_eqb a b) eqn:E; [|reflexivity].
    apply cell_eqb_eq in E. contradiction.
Qed.

Lemma unique_from_In (c seen : list cell) (x : cell) :
  In x (unique_from seen c)
  <-> In x c /\ existsb (cell_eqb x) seen = false.
Proof.
  revert seen. induction c as [|a t IH]; simpl; intros seen.
  - tauto.
  - destruct (existsb (cell_eqb a) seen) eqn:Ea.
    + rewrite IH. split.
      * intros [Hx Hs]. auto.
      * intros [[->|Hx] Hs]; [congruence | auto].
    + simpl. rewrite IH. simpl. rewrite orb_false_iff. split.
      * intros [->|[Hx [_ Hs]]]; auto.
      * intros [[->|Hx] Hs]; [now left|].
        destruct (cell_eqb x a) eqn:Exa.
        -- left. apply cell_eqb_eq in Exa. congruence.
        -- right. auto.
Qed.

Lemma unique_from_NoDup (c seen : list cell) : NoDup (unique_from seen c).
Proof.
  revert seen. induction c as [|a t IH]; simpl; intros seen; [constructor|].
  destruct (existsb (cell_eqb a) seen); [apply IH|].
  constructor; [|apply IH].
  rewrite unique_from_In. simpl. rewrite cell_eqb_refl. simpl.
  intros [_ H]. discriminate.
Qed.

Lemma unique_from_order (c seen : list cell) (i j : nat) (x y : cell) :
  i < j ->
  nth_error (unique_from seen c) i = Some x ->
  nth_error (unique_from seen c) j = Some y ->
  index_of x c < index_of y c.
Proof.
  revert seen i j. induction c as [|a t IH]; simpl; intros seen i j Hij Hx Hy.
  - destruct i; discriminate.
  - destruct (existsb (cell_eqb a) seen) eqn:Ea.
    + assert (Hne : forall z k, nth_error (unique_from seen t) k = Some z ->
                                cell_eqb z a = false).
      { intros z k Hz. apply nth_error_In, unique_from_In in Hz.
        destruct Hz as [_ Hz]. apply cell_eqb_neq. intros ->. congruence. }
      rewrite (Hne x i Hx), (Hne y j Hy).
      apply -> Nat.succ_lt_mono. now apply (IH seen i j).
    + assert (Hne : forall z k,
                nth_error (unique_from (a :: seen) t) k = Some z ->
                cell_eqb z a = false).
      { intros z k Hz. apply nth_error_In, unique_from_In in Hz.
        destruct Hz as [_ Hz]. simpl in Hz. now apply orb_false_iff in Hz. }
      destruct j as [|j]; [lia|]. simpl in Hy. rewrite (Hne y j Hy).
      destruct i as [|i]; simpl in Hx.
      * injection Hx as <-. rewrite cell_eqb_refl. lia.
      * rewrite (Hne x i Hx). apply -> Nat.succ_lt_mono.
        apply (IH (a :: seen) i j); [lia | assumption | assumption].
Qed.

Lemma unique_first_seen (c : list cell) : first_seen_distinct c (unique c).
Proof.
  unfold unique. split; [apply unique_from_NoDup|]. split.
  - intros x. rewrite unique_from_In. simpl. tauto.
  - intros i j x y. apply unique_from_order.
Qed.

Lemma options_of_spec (c : list cell) : option_list_of c (options_of c).
Proof.
  unfold option_list_of, options_of. rewrite !map_map. simpl.
  split; [reflexivity|]. rewrite map_id. apply unique_first_seen.
Qed.

End UniqueFacts.

(** C4, amended.  The Sub-district and the Happy Block option queries apply
    the equality constraints of the levels above their own only, an unset
    level excluding no row, and return one option per distinct value of
    their own column among the rows kept, in the order of first appearance.
    So does the District query once a Province is selected; with no Province
    selected it returns the empty option list. *)
Theorem option_discovery (data : list Row) (p d s : selection) :
  (truthy p = true ->
     option_list_of
       (map (get District) (filter (eq_constraint (get Province) p) data))
       (update_district_filter data p))
  /\ (truthy p = false -> update_district_filter data p = [])
  /\ option_list_of
       (map (get Sub_district)
            (filter (fun r => eq_constraint (get Province) p r
                              && eq_constraint (get District) d r) data))
       (update_subdistrict_filter data p d)
  /\ option_list_of
       (map (get Happy_Block)
            (filter (fun r => eq_constraint (get Province) p r
                              && eq_constraint (get District) d r
                              && eq_constraint (get Sub_district) s r) data))
       (update_happyblock_filter data p d s).
Proof.
  split; [|split; [|split]].
  - intros Hp. unfold update_district_filter.
    destruct p as [v|]; [|discriminate]. rewrite Hp.
    replace (select_eq (get Province) v data)
      with (narrow (get Province) (Some v) data)
      by (unfold narrow; now rewrite Hp).
    rewrite narrow_filter. apply options_of_spec.
  - intros Hp. unfold update_district_filter.
    destruct p as [v|]; [now rewrite Hp | reflexivity].
  - unfold update_subdistrict_filter.
    rewrite !narrow_filter, !filter_filter. apply options_of_spec.
  - unfold update_happyblock_filter.
    rewrite !narrow_filter, !filter_filter.
    match goal with
    | |- option_list_of (map _ (filter ?f _)) (options_of (map _ (filter ?g _))) =>
        rewrite (filter_ext g f) by (intros r; now rewrite andb_assoc)
    end.
    apply options_of_spec.
Qed.

(** ** Stale selections and undefined metrics *)

Section StaleFacts.

Lemma options_of_nil : options_of [] = [].
Proof. reflexivity. Qed.

Lemma district_options_filter (data : list Row) (p : selection) :
  truthy p = true ->
  update_district_filter data p
  = options_of (map (get District) (filter (eq_constraint (get Province) p) data)).
Proof.
  intros Hp. unfold update_district_filter.
  destruct p as [v|]; [|discriminate]. rewrite Hp.
  f_equal. f_equal. unfold select_eq, eq_constraint. now rewrite Hp.
Qed.

Lemma subdistrict_options_filter (data : list Row) (p d : selection) :
  update_subdistrict_filter data p d
  = options_of (map (get Sub_district) (filter (above_subdistrict p d) data)).
Proof.
  unfold update_subdistrict_filter. now rewrite !narrow_filter, !filter_filter.
Qed.

Lemma happyblock_options_filter (data : list Row) (p d s : selection) :
  update_happyblock_filter data p d s
  = options_of (map (get Happy_Block) (filter (above_happyblock p d s) data)).
Proof.
  unfold update_happyblock_filter.
  rewrite !narrow_filter, !filter_filter.
  do 2 f_equal. apply filter_ext. intros r.
  unfold above_happyblock, above_subdistrict, above_district.
  now rewrite andb_assoc.
Qed.

Lemma matches_above (p d s h : selection) (na ps ut ms : range) (r : Row) :
  matches p d s h na ps ut ms r = true ->
  above_happyblock p d s r = true /\ eq_constraint (get Happy_Block) h r = true.
Proof.
  unfold matches, above_happyblock, above_subdistrict, above_district.
  rewrite !andb_true_iff. tauto.
Qed.

(** No row passes the main filter once some row-independent part of the
    conjunction fails on every row. *)
Lemma update_map_none (data : list Row) (p d s h : selection)
    (na ps ut ms : range) :
  (forall r, In r data ->
     above_happyblock p d s r && eq_constraint (get Happy_Block) h r = false) ->
  update_map data p d s h na ps ut ms = [].
Proof.
  intros Hnone. rewrite update_map_filter. apply filter_none.
  intros r Hr. specialize (Hnone r Hr).
  destruct (matches p d s h na ps ut ms r) eqn:E; [|reflexivity].
  apply matches_above in E. destruct E as [E1 E2].
  rewrite E1, E2 in Hnone. discriminate.
Qed.

End StaleFacts.

(** C5.  When the selection of some level is set and names a value that no
    row has under the constraints of the levels above it, [update_map]
    returns the empty frame, whatever the other inputs, and every option
    query below that level returns the empty option list.  (The callbacks are
    total functions of their inputs: there is no error to return.) *)
Theorem stale_selection_gives_empty (data : list Row) (p d s h : selection)
    (na ps ut ms : range) :
  (stale_at_province data p ->
     update_map data p d s h na ps ut ms = []
     /\ update_district_filter data p = []
     /\ update_subdistrict_filter data p d = []
     /\ update_happyblock_filter data p d s = [])
  /\ (stale_at_district data p d ->
        update_map data p d s h na ps ut ms = []
        /\ update_subdistrict_filter data p d = []
        /\ update_happyblock_filter data p d s = [])
  /\ (stale_at_subdistrict data p d s ->
        update_map data p d s h na ps ut ms = []
        /\ update_happyblock_filter data p d s = [])
  /\ (stale_at_happyblock data p d s h ->
        update_map data p d s h na ps ut ms = []).
Proof.
  unfold stale_at_province, stale_at_district, stale_at_subdistrict,
    stale_at_happyblock, stale.
  split; [|split; [|split]].
  - intros [Hp Hs].
    assert (Hf : forall r, In r data -> eq_constraint (get Province) p r = false)
      by (intros r Hr; now apply Hs).
    split; [|split; [|split]].
    + apply update_map_none. intros r Hr.
      unfold above_happyblock, above_subdistrict, above_district.
      now rewrite (Hf r Hr).
    + rewrite (district_options_filter data p Hp), (filter_none _ _ Hf).
      reflexivity.
    + rewrite subdistrict_options_filter, filter_none; [reflexivity|].
      intros r Hr. unfold above_subdistrict, above_district.
      now rewrite (Hf r Hr).
    + rewrite happyblock_options_filter, filter_none; [reflexivity|].
      intros r Hr. unfold above_happyblock, above_subdistrict, above_district.
      now rewrite (Hf r Hr).
  - intros [Hd Hs].
    assert (Hf : forall r, In r data -> above_subdistrict p d r = false).
    { intros r Hr. unfold above_subdistrict.
      destruct (above_district p r) eqn:E; [|reflexivity].
      now rewrite (Hs r Hr E). }
    split; [|split].
    + apply update_map_none. intros r Hr.
      unfold above_happyblock. now rewrite (Hf r Hr).
    + rewrite subdistrict_options_filter, (filter_none _ _ Hf). reflexivity.
    + rewrite happyblock_options_filter, filter_none; [reflexivity|].
      intros r Hr. unfold above_happyblock. now rewrite (Hf r Hr).
  - intros [Hd Hs].
    assert (Hf : forall r, In r data -> above_happyblock p d s r = false).
    { intros r Hr. unfold above_happyblock.
      destruct (above_subdistrict p d r) eqn:E; [|reflexivity].
      now rewrite (Hs r Hr E). }
    split.
    + apply update_map_none. intros r Hr. now rewrite (Hf r Hr).
    + rewrite happyblock_options_filter, (filter_none _ _ Hf). reflexivity.
  - intros [Hd Hs]. apply update_map_none. intros r Hr.
    destruct (above_happyblock p d s r) eqn:E; [|reflexivity].
    now rewrite (Hs r Hr E).
Qed.

Section NaNFacts.

Lemma in_range_nan (x : num) (rg : range) :
  is_nan x = true -> in_range x rg = false.
Proof. destruct x; try discriminate. destruct rg as [[] []]; reflexivity. Qed.

Lemma matches_nan (p d s h : selection) (na ps ut ms : range) (r : Row) :
  has_nan_metric r = true -> matches p d s h na ps ut ms r = false.
Proof.
  unfold has_nan_metric, matches. rewrite !orb_true_iff.
  intros [[[H|H]|H]|H]; rewrite (in_range_nan _ _ H);
    rewrite ?andb_false_r; reflexivity.
Qed.

End NaNFacts.

(** C10.  A row of [data] whose Net Add, Potential Score, Port Utilization
    or Market Share True is NaN is in no frame [update_map] returns, whatever
    the selections and the ranges; so it is not with the sliders at their
    initial values either, where the result differs from [data] although
    nothing is selected. *)
Theorem nan_row_excluded (data : list Row) (r : Row) :
  In r data -> has_nan_metric r = true ->
  (forall p d s h na ps ut ms, ~ In r (update_map data p d s h na ps ut ms))
  /\ ~ In r (update_map data None None None None
               (default_net_add_range data) default_percent_range
               default_percent_range default_percent_range)
  /\ update_map data None None None None
       (default_net_add_range data) default_percent_range
       default_percent_range default_percent_range <> data.
Proof.
  intros Hr Hn.
  assert (Hex : forall p d s h na ps ut ms,
             ~ In r (update_map data p d s h na ps ut ms)).
  { intros p d s h na ps ut ms Hin. rewrite update_map_filter in Hin.
    apply filter_In in Hin. destruct Hin as [_ Hm].
    rewrite (matches_nan p d s h na ps ut ms r Hn) in Hm. discriminate. }
  split; [exact Hex|]. split; [apply Hex|].
  intros E. apply (Hex None None None None (default_net_add_range data)
                     default_percent_range default_percent_range
                     default_percent_range).
  now rewrite E.
Qed.

(** ** The shared frame is never written *)

Module SharedFacts.

Lemma extends_refl (h : Shared.heap) : extends h h.
Proof. exists []. now rewrite app_nil_r. Qed.

Lemma extends_trans (h1 h2 h3 : Shared.heap) :
  extends h1 h2 -> extends h2 h3 -> extends h1 h3.
Proof. intros [e1 ->] [e2 ->]. exists (e1 ++ e2). now rewrite app_assoc. Qed.

Lemma frame_at_extends (h h' : Shared.heap) (r : Shared.ref) (df : list Row) :
  extends h h' -> frame_at h r df -> frame_at h' r df.
Proof.
  intros [ext ->] F. unfold frame_at in *.
  rewrite nth_error_app1; [exact F|].
  apply nth_error_Some. congruence.
Qed.

Lemma frame_at_nth (h : Shared.heap) (r : Shared.ref) (df : list Row) :
  frame_at h r df -> nth r h [] = df.
Proof. intros F. now apply nth_error_nth. Qed.

Lemma ends_ret {A : Type} (h : Shared.heap) (a : A) (Q : A -> Shared.heap -> Prop) :
  Q a h -> ends h (Shared.ret a) Q.
Proof. intros HQ. exact HQ. Qed.

Lemma ends_bind {A B : Type} (h : Shared.heap) (m : Shared.M A) (k : A -> Shared.M B)
    (P : A -> Shared.heap -> Prop) (Q : B -> Shared.heap -> Prop) :
  ends h m P -> (forall a h', P a h' -> ends h' (k a) Q) -> ends h (Shared.bind m k) Q.
Proof.
  unfold ends, Shared.bind. intros HP Hk.
  destruct (m h) as [a h'] eqn:E. simpl in HP. exact (Hk a h' HP).
Qed.

Lemma ends_weaken {A : Type} (h : Shared.heap) (m : Shared.M A)
    (P Q : A -> Shared.heap -> Prop) :
  ends h m P -> (forall a h', P a h' -> Q a h') -> ends h m Q.
Proof. unfold ends. intros HP HQ. now apply HQ. Qed.

Lemma ends_read (h : Shared.heap) (r : Shared.ref) (df : list Row) :
  frame_at h r df -> ends h (Shared.read r) (fun a h' => a = df /\ h' = h).
Proof.
  intros F. unfold ends, Shared.read. simpl.
  split; [now apply frame_at_nth | reflexivity].
Qed.

Lemma ends_new (h : Shared.heap) (df : list Row) :
  ends h (Shared.new df) (fun r h' => extends h h' /\ frame_at h' r df).
Proof.
  unfold ends, Shared.new. simpl. split; [now exists [df]|].
  unfold frame_at. rewrite nth_error_app2 by lia.
  now rewrite Nat.sub_diag.
Qed.

(** The three pandas operations write one more frame and leave the heap they
    found as it was. *)
Lemma ends_copy (h : Shared.heap) (r : Shared.ref) (df : list Row) :
  frame_at h r df ->
  ends h (Shared.copy r) (fun r' h' => extends h h' /\ frame_at h' r' df).
Proof.
  intros F. unfold Shared.copy.
  apply ends_bind with (1 := ends_read h r df F).
  intros a h' [-> ->]. apply ends_new.
Qed.

Lemma ends_index_eq (h : Shared.heap) (col : Row -> cell) (v : string) (r : Shared.ref)
    (df : list Row) :
  frame_at h r df ->
  ends h (Shared.index_eq col v r)
       (fun r' h' => extends h h' /\ frame_at h' r' (select_eq col v df)).
Proof.
  intros F. unfold Shared.index_eq.
  apply ends_bind with (1 := ends_read h r df F).
  intros a h' [-> ->]. apply ends_new.
Qed.

Lemma ends_index_mask (h : Shared.heap) (mask : Row -> bool) (r : Shared.ref)
    (df : list Row) :
  frame_at h r df ->
  ends h (Shared.index_mask mask r)
       (fun r' h' => extends h h' /\ frame_at h' r' (filter mask df)).
Proof.
  intros F. unfold Shared.index_mask.
  apply ends_bind with (1 := ends_read h r df F).
  intros a h' [-> ->]. apply ends_new.
Qed.

Lemma ends_options (h : Shared.heap) (col : Row -> cell) (r : Shared.ref)
    (df : list Row) :
  frame_at h r df ->
  ends h (Shared.options col r) (fun l h' => l = options_of (map col df) /\ h' = h).
Proof.
  intros F. unfold Shared.options.
  apply ends_bind with (1 := ends_read h r df F).
  intros a h' [-> ->]. apply ends_ret. auto.
Qed.

Lemma ends_narrow (h : Shared.heap) (col : Row -> cell) (v : selection) (r : Shared.ref)
    (df : list Row) :
  frame_at h r df ->
  ends h (Shared.narrow col v r)
       (fun r' h' => extends h h'
                     /\ frame_at h' r' (narrow col v df)).
Proof.
  intros F. unfold Shared.narrow, narrow. destruct v as [s|].
  - destruct (truthy (Some s)).
    + now apply ends_index_eq.
    + apply ends_ret. split; [apply extends_refl | exact F].
  - apply ends_ret. split; [apply extends_refl | exact F].
Qed.

(** A step of a callback: from a frame at [r] in a heap that extends [h0]
    to the next one. *)
Ltac step lem :=
  match goal with
  | E : extends ?h0 ?h, F : frame_at ?h ?r ?df |- ends ?h (Shared.bind _ _) _ =>
      eapply ends_bind; [apply lem; exact F|];
      let r' := fresh "r" in let h' := fresh "h" in
      let E' := fresh "E" in let F' := fresh "F" in
      intros r' h' [E' F'];
      pose proof (extends_trans _ _ _ E E') ; clear E E' F
  end.

Lemma update_district_filter_ends (h : Shared.heap) (data : Shared.ref) (df : list Row)
    (p : selection) :
  frame_at h data df ->
  ends h (Shared.update_district_filter data p)
       (fun l h' => extends h h' /\ l = update_district_filter df p).
Proof.
  intros F. unfold Shared.update_district_filter, update_district_filter.
  destruct p as [v|]; [|apply ends_ret; split; [apply extends_refl | reflexivity]].
  destruct (truthy (Some v));
    [|apply ends_ret; split; [apply extends_refl | reflexivity]].
  eapply ends_bind; [apply ends_index_eq; exact F|].
  intros r1 h1 [E1 F1].
  eapply ends_weaken; [apply ends_options; exact F1|].
  intros l h2 [-> ->]. auto.
Qed.

Lemma update_subdistrict_filter_ends (h : Shared.heap) (data : Shared.ref) (df : list Row)
    (p d : selection) :
  frame_at h data df ->
  ends h (Shared.update_subdistrict_filter data p d)
       (fun l h' => extends h h'
                    /\ l = update_subdistrict_filter df p d).
Proof.
  intros F. unfold Shared.update_subdistrict_filter.
  pose proof (extends_refl h) as E.
  step ends_copy. step ends_narrow. step ends_narrow.
  eapply ends_weaken; [apply ends_options; eassumption|].
  intros l h' [-> ->]. auto.
Qed.

Lemma update_happyblock_filter_ends (h : Shared.heap) (data : Shared.ref) (df : list Row)
    (p d s : selection) :
  frame_at h data df ->
  ends h (Shared.update_happyblock_filter data p d s)
       (fun l h' => extends h h'
                    /\ l = update_happyblock_filter df p d s).
Proof.
  intros F. unfold Shared.update_happyblock_filter.
  pose proof (extends_refl h) as E.
  step ends_copy. step ends_narrow. step ends_narrow. step ends_narrow.
  eapply ends_weaken; [apply ends_options; eassumption|].
  intros l h' [-> ->]. auto.
Qed.

Lemma update_map_ends (h : Shared.heap) (data : Shared.ref) (df : list Row)
    (p d s hb : selection) (na ps ut ms : range) :
  frame_at h data df ->
  ends h (Shared.update_map data p d s hb na ps ut ms)
       (fun out h' => extends h h'
                      /\ out = update_map df p d s hb na ps ut ms).
Proof.
  intros F. unfold Shared.update_map.
  pose proof (extends_refl h) as E.
  step ends_copy. step ends_narrow. step ends_narrow. step ends_narrow.
  step ends_narrow. step ends_index_mask.
  eapply ends_weaken; [apply ends_read; eassumption|].
  intros out h' [-> ->]. auto.
Qed.

Lemma run_ends (h : Shared.heap) (data : Shared.ref) (df : list Row) (q : Shared.query) :
  frame_at h data df ->
  ends h (Shared.run data q) (fun a h' => extends h h' /\ a = answer_of df q).
Proof.
  intros F. destruct q; unfold Shared.run, answer_of.
  - eapply ends_bind; [apply update_district_filter_ends; exact F|].
    intros l h' [E ->]. apply ends_ret. auto.
  - eapply ends_bind; [apply update_subdistrict_filter_ends; exact F|].
    intros l h' [E ->]. apply ends_ret. auto.
  - eapply ends_bind; [apply update_happyblock_filter_ends; exact F|].
    intros l h' [E ->]. apply ends_ret. auto.
  - eapply ends_bind; [apply update_map_ends; exact F|].
    intros l h' [E ->]. apply ends_ret. auto.
Qed.

Lemma run_all_ends (qs : list Shared.query) (h : Shared.heap)
    (data : Shared.ref) (df : list Row) :
  frame_at h data df ->
  ends h (Shared.run_all data qs)
       (fun l h' => extends h h' /\ l = map (answer_of df) qs).
Proof.
  revert h. induction qs as [|q qs IH]; intros h F; cbn [Shared.run_all map].
  - apply ends_ret. split; [apply extends_refl | reflexivity].
  - eapply ends_bind; [apply run_ends; exact F|].
    intros a h1 [E1 ->].
    eapply ends_bind; [apply IH; apply (frame_at_extends h h1 _ _ E1 F)|].
    intros l h2 [E2 ->]. apply ends_ret.
    split; [now apply (extends_trans h h1 h2) | reflexivity].
Qed.

End SharedFacts.

(** C9.  Whatever callbacks run, with whatever inputs and in whatever
    order, on a heap that holds the preprocessed frame at the address of
    [data]: afterwards that address holds the same frame, every row and
    every column of it, all other objects there were are as they were (the
    callbacks only added new ones), and each callback returned what it
    returns on the frame passed by value. *)
Theorem queries_leave_data_unchanged (qs : list Shared.query)
    (h : Shared.heap) (data : Shared.ref) (df : list Row) :
  nth_error h data = Some df ->
  nth_error (snd (Shared.run_all data qs h)) data = Some df
  /\ (exists fresh, snd (Shared.run_all data qs h) = h ++ fresh)
  /\ fst (Shared.run_all data qs h) = map (answer_of df) qs.
Proof.
  intros F. pose proof (SharedFacts.run_all_ends qs h data df F) as [E A].
  split; [|split].
  - now apply (SharedFacts.frame_at_extends h).
  - exact E.
  - exact A.
Qed.

(** ** The loader *)

Section LoaderFacts.




End LoaderFacts.



(** ** The claims on the small dataset *)

Section Examples.

Lemma qc_nonneg (n : Z) : (0 <= n)%Z -> nonneg (Fin (qc n 1)).
Proof.
  intros Hn. unfold nonneg, qc, Qcle, Q2Qc; cbn [this]. rewrite !Qred_correct.
  unfold Qle; cbn. lia.
Qed.

Lemma qc_positive (n : Z) : (0 < n)%Z -> positive (Fin (qc n 1)).
Proof.
  intros Hn. unfold positive, qc, Qclt, Q2Qc; cbn [this]. rewrite !Qred_correct.
  unfold Qlt; cbn. lia.
Qed.

Lemma mk_nonneg_inputs (p d s b : string) (hh inst ch pu ut ms na : Z)
    (sp : string) (v : num) :
  (0 <= hh)%Z -> (0 <= inst)%Z -> (0 <= ch)%Z -> (0 <= pu)%Z -> (0 <= ms)%Z ->
  speed (Str sp) = Some v -> nonneg v ->
  nonneg_inputs (mk p d s b hh inst ch pu ut ms sp na).
Proof.
  intros H1 H2 H3 H4 H5 Hs Hv. unfold nonneg_inputs, mk; simpl.
  repeat (split; [now apply qc_nonneg|]). eauto.
Qed.

Lemma speed_1000 : speed (Str "1000 Mbps") = Some one.
Proof. vm_compute. do 2 f_equal. apply Qc_is_canon. reflexivity. Qed.

Lemma example_data_nonneg : Forall nonneg_inputs example_data.
Proof.
  apply Forall_cons; [|apply Forall_cons; [|apply Forall_nil]].
  - unfold row_a; eapply mk_nonneg_inputs; try lia; [apply speed_850|].
    unfold nonneg, Qcle; vm_compute; discriminate.
  - unfold row_b; eapply mk_nonneg_inputs; try lia; [apply speed_1200|].
    unfold nonneg, Qcle; vm_compute; discriminate.
Qed.

Lemma degenerate_data_nonneg : Forall nonneg_inputs degenerate_data.
Proof.
  apply Forall_cons; [|apply Forall_cons; [|apply Forall_nil]].
  - unfold row_a; eapply mk_nonneg_inputs; try lia; [apply speed_850|].
    unfold nonneg, Qcle; vm_compute; discriminate.
  - unfold row_c; eapply mk_nonneg_inputs; try lia; [apply speed_1000|].
    unfold nonneg, Qcle; vm_compute; discriminate.
Qed.

Lemma example_data_parses : speeds_parse example_data.
Proof. repeat constructor; intros E; vm_compute in E; discriminate E. Qed.

Lemma degenerate_data_parses : speeds_parse degenerate_data.
Proof. repeat constructor; intros E; vm_compute in E; discriminate E. Qed.

End Examples.


(** C2, amended, on [example_data]. *)
Lemma potential_score_bounds_witness :
  exists rows, preprocess example_data = Some rows
    /\ Forall score_in_range rows
    /\ Exists (fun r => Potential_Score r = hundred) rows.
Proof.
  apply (potential_score_bounds example_data).
  - exact example_data_nonneg.
  - apply Forall_cons; [|apply Forall_cons; [|apply Forall_nil]];
      vm_compute; reflexivity.
  - vm_compute; reflexivity.
  - vm_compute; reflexivity.
  - vm_compute; reflexivity.
Defined.

(** C2 as stated fails: in [degenerate_data] every input is finite and at
    least zero and the first raw score is not zero, but the second row, with
    Churn = Port Use = 0, gets the ratio 0/0 and a 'Potential Score' that is
    NaN, outside [0, 100]. *)
Lemma potential_score_undefined_without_ports :
  Forall nonneg_inputs degenerate_data
  /\ preprocess degenerate_data = Some degenerate_rows
  /\ raw_scores degenerate_data
     = Some (map (Spec.PotentialScoreRaw degenerate_data) degenerate_data)
  /\ Exists (fun x => x <> zero)
            (map (Spec.PotentialScoreRaw degenerate_data) degenerate_data)
  /\ Exists (fun r => Potential_Score r = NaN) degenerate_rows
  /\ ~ Forall score_in_range degenerate_rows.
Proof.
  split; [exact degenerate_data_nonneg|].
  split; [exact (preprocess_total _ degenerate_data_parses)|].
  split; [exact (raw_scores_rows _ degenerate_data_parses)|].
  split; [|split].
  - apply Exists_cons_hd. intros E. vm_compute in E. discriminate E.
  - apply Exists_cons_tl, Exists_cons_hd. vm_compute. reflexivity.
  - intros HF. inversion HF as [|r l _ HF' E]; subst.
    inversion HF' as [|r' l' [q [Hq _]] _ E']; subst.
    vm_compute in Hq. discriminate Hq.
Qed.

(** With no household anywhere every score is undefined. *)
Lemma potential_score_undefined_without_households :
  Forall nonneg_inputs [row_z]
  /\ preprocess [row_z] = Some (map (Spec.row [row_z]) [row_z])
  /\ map Potential_Score (map (Spec.row [row_z]) [row_z]) = [NaN].
Proof.
  assert (Hp : speeds_parse [row_z])
    by (repeat constructor; intros E; vm_compute in E; discriminate E).
  split; [|split].
  - apply Forall_cons; [|apply Forall_nil]. unfold row_z.
    eapply mk_nonneg_inputs; try lia; [apply speed_1000|].
    unfold nonneg, Qcle; vm_compute; discriminate.
  - exact (preprocess_total _ Hp).
  - vm_compute. reflexivity.
Qed.

(** C6 on the second row of [example_data]: Churn 5, Port Use 2. *)
Lemma churn_factor_clipped_witness :
  fac_1_C (Spec.row example_data row_b) = Fin (1 - cap1 (qc 5 1 / qc 2 1))%Qc
  /\ nonneg (fac_1_C (Spec.row example_data row_b))
  /\ ((qc 2 1 < qc 5 1)%Qc -> fac_1_C (Spec.row example_data row_b) = zero).
Proof.
  apply (churn_factor_clipped example_data example_rows
           (Spec.row example_data row_b) (qc 5 1) (qc 2 1)).
  - exact (preprocess_total _ example_data_parses).
  - right; left; reflexivity.
  - reflexivity.
  - reflexivity.
  - unfold Qcle; vm_compute; discriminate.
  - unfold Qclt; vm_compute; reflexivity.
Defined.

(** C10 on [degenerate_rows], whose second row has the score NaN. *)
Lemma nan_row_excluded_witness :
  (forall p d s h na ps ut ms,
     ~ In (Spec.row degenerate_data row_c)
          (update_map degenerate_rows p d s h na ps ut ms))
  /\ ~ In (Spec.row degenerate_data row_c)
          (update_map degenerate_rows None None None None
             (default_net_add_range degenerate_rows) default_percent_range
             default_percent_range default_percent_range)
  /\ update_map degenerate_rows None None None None
       (default_net_add_range degenerate_rows) default_percent_range
       default_percent_range default_percent_range <> degenerate_rows.
Proof.
  apply (nan_row_excluded degenerate_rows (Spec.row degenerate_data row_c)).
  - right; left; reflexivity.
  - vm_compute. reflexivity.
Defined.

(** C4 as stated fails: with no Province selected the District query
    returns no option, while the frame has the districts D1 and D2. *)
Lemma district_options_empty_without_province :
  update_district_filter example_rows None = []
  /\ unique (map (get District)
                 (filter (eq_constraint (get Province) None) example_rows))
     = [Str "D1"; Str "D2"].
Proof. split; reflexivity. Qed.

(** C5 on [example_rows]: the province A has no district D3. *)
Lemma stale_selection_witness :
  update_map example_rows (Some "A") (Some "D3") None None
             (default_net_add_range example_rows) default_percent_range
             default_percent_range default_percent_range = []
  /\ update_subdistrict_filter example_rows (Some "A") (Some "D3") = []
  /\ update_happyblock_filter example_rows (Some "A") (Some "D3") None = [].
Proof.
  apply (stale_selection_gives_empty example_rows (Some "A") (Some "D3")
           None None).
  split; [reflexivity|].
  intros r [<-|[<-|[]]] _; reflexivity.
Defined.

(** C9 for three callbacks on a heap that holds [example_rows] alone. *)
Lemma queries_leave_data_unchanged_witness :
  let qs := [Shared.SubdistrictOptions (Some "A") None;
             Shared.MapFigure (Some "A") None None None
               (default_net_add_range example_rows) default_percent_range
               default_percent_range default_percent_range;
             Shared.DistrictOptions (Some "A")] in
  nth_error (snd (Shared.run_all 0 qs [example_rows])) 0 = Some example_rows
  /\ (exists fresh, snd (Shared.run_all 0 qs [example_rows])
                    = [example_rows] ++ fresh)
  /\ fst (Shared.run_all 0 qs [example_rows]) = map (answer_of example_rows) qs.
Proof.
  intros qs. apply (queries_leave_data_unchanged qs [example_rows] 0 example_rows).
  reflexivity.
Defined.

(** C7 on the cell "100 Mbps". *)
Lemma speed_factor_witness :
  speed (Str "100 Mbps")
  = option_map (fun v => div v thousand) (PyStr.float "100").
Proof.
  apply (proj1 speed_factor_first_token "100" "Mbps" " "%char);
    [discriminate | reflexivity | reflexivity].
Defined.

(** * More of the code *)

(** ** When preprocessing fails, and what it keeps *)

Section PreprocessFacts.

Lemma apply_series_none {A B : Type} (f : A -> option B) (l : list A) :
  apply_series f l = None <-> Exists (fun x => f x = None) l.
Proof.
  induction l as [|x l IH]; simpl.
  - split; [discriminate | intros H; inversion H].
  - destruct (f x) as [y|] eqn:Fx.
    + destruct (apply_series f l) as [ys|] eqn:Fl.
      * split; [discriminate|]. intros H. inversion H as [? ? E|? ? E]; subst.
        -- congruence.
        -- apply IH in E. discriminate.
      * split; [|reflexivity]. intros _. apply Exists_cons_tl, IH. reflexivity.
    + split; [|reflexivity]. intros _. now apply Exists_cons_hd.
Qed.

End PreprocessFacts.

Lemma preprocess_none_iff (data : list RawRow) :
  preprocess data = None
  <-> Exists (fun d => speed (True_Speed d) = None) data.
Proof.
  unfold preprocess, col_S.
  destruct (apply_series speed (map True_Speed data)) as [s|] eqn:E.
  - split; [discriminate|]. intros H.
    assert (N : apply_series speed (map True_Speed data) = None).
    { apply apply_series_none. apply Exists_exists in H.
      destruct H as (d & Hd & Hs). apply Exists_exists.
      exists (True_Speed d). split; [now apply in_map | exact Hs]. }
    congruence.
  - split; [|reflexivity]. intros _.
    apply apply_series_none in E. apply Exists_exists in E.
    destruct E as (x & Hx & Hs). apply in_map_iff in Hx.
    destruct Hx as (d & <- & Hd). apply Exists_exists. eauto.
Qed.

(** X1.  On a frame that has the columns of [RawRow] (Household, Install,
    Churn, Port Use and Market Share True as numeric columns, True Speed as
    a column of strings with missing cells), preprocessing fails, line 48
    catching the exception, exactly when some 'True Speed' cell raises in
    line 34: a missing cell, a cell without a word, or a first word that
    [float()] rejects.  (On such a frame lines 30-33 and 37-46 raise
    nothing; a frame that lacks a column, or has text in a numeric one, is
    outside the frames modelled and fails as well.) *)
Theorem preprocess_fails_iff (data : list RawRow) :
  preprocess data = None
  <-> Exists (fun d => speed (True_Speed d) = None) data.
Proof. apply preprocess_none_iff. Qed.

(** X2.  When preprocessing succeeds the frame has the rows it had, in
    their order and with every loaded column as it was: the pass adds columns
    and drops or reorders nothing. *)
Theorem preprocess_keeps_loaded_columns (data : list RawRow) (rows : list Row) :
  preprocess data = Some rows ->
  map base rows = data /\ List.length rows = List.length data.
Proof.
  intros E. rewrite (preprocess_rows data rows E). split.
  - rewrite map_map. simpl. apply map_id.
  - apply length_map.
Qed.

(** ** Words and speed cells *)

Section SplitFacts.

Lemma no_space_app (a b : string) :
  no_space (a ++ b) = no_space a && no_space b.
Proof.
  induction a as [|c a IH]; simpl; [reflexivity|].
  now rewrite IH, andb_assoc.
Qed.

Lemma append_nil_r (w : string) : (w ++ "")%string = w.
Proof. induction w as [|a w IH]; simpl; [reflexivity | now rewrite IH]. Qed.

Lemma append_assoc (a b c : string) :
  ((a ++ b) ++ c = a ++ (b ++ c))%string.
Proof. induction a as [|x a IH]; simpl; [reflexivity | now rewrite IH]. Qed.

Lemma flush_words (w : string) (k : list string) :
  no_space w = true ->
  Forall (fun x => x <> "" /\ no_space x = true) k ->
  Forall (fun x => x <> "" /\ no_space x = true) (PyStr.flush w k).
Proof.
  intros Hw Hk. unfold PyStr.flush. destruct (w =? "")%string eqn:E; [exact Hk|].
  constructor; [|exact Hk]. split; [now apply String.eqb_neq | exact Hw].
Qed.

Lemma flush_concat (w : string) (k : list string) :
  concat_words (PyStr.flush w k) = (w ++ concat_words k)%string.
Proof.
  unfold PyStr.flush. destruct (w =? "")%string eqn:E; [|reflexivity].
  apply String.eqb_eq in E. now subst.
Qed.

Lemma split_acc_words (s w : string) :
  no_space w = true ->
  Forall (fun x => x <> "" /\ no_space x = true) (PyStr.split_acc w s).
Proof.
  revert w. induction s as [|c s IH]; simpl; intros w Hw.
  - now apply flush_words.
  - destruct (PyStr.is_space c) eqn:Ec.
    + apply flush_words; [exact Hw | now apply IH].
    + apply IH. rewrite no_space_app, Hw. simpl. now rewrite Ec.
Qed.

Lemma split_acc_concat (s w : string) :
  concat_words (PyStr.split_acc w s) = (w ++ drop_spaces s)%string.
Proof.
  revert w. induction s as [|c s IH]; simpl; intros w.
  - now rewrite flush_concat.
  - destruct (PyStr.is_space c).
    + now rewrite flush_concat, IH.
    + now rewrite IH, append_assoc.
Qed.

Lemma split_acc_all_space (s w : string) :
  all_space s = true -> PyStr.split_acc w s = PyStr.flush w [].
Proof.
  revert w. induction s as [|c s IH]; simpl; intros w Hs; [reflexivity|].
  apply andb_true_iff in Hs. destruct Hs as [Hc Hs]. rewrite Hc.
  rewrite (IH "" Hs). reflexivity.
Qed.

Lemma split_acc_lead (lead s w : string) :
  all_space lead = true -> w = "" ->
  PyStr.split_acc w (lead ++ s) = PyStr.split_acc w s.
Proof.
  intros Hl ->. induction lead as [|c l IH]; simpl; [reflexivity|].
  simpl in Hl. apply andb_true_iff in Hl. destruct Hl as [Hc Hl].
  rewrite Hc. simpl. now apply IH.
Qed.

End SplitFacts.

(** [x.split()] gives words that are not empty and hold no whitespace, and
    together they are the characters of [x] that are not whitespace. *)
Lemma split_words (s : string) :
  Forall (fun w => w <> "" /\ no_space w = true) (PyStr.split s)
  /\ concat_words (PyStr.split s) = drop_spaces s.
Proof.
  unfold PyStr.split. split.
  - now apply split_acc_words.
  - now rewrite split_acc_concat.
Qed.

Section SpeedFacts.

Lemma speed_blank (s : string) : all_space s = true -> speed (Str s) = None.
Proof.
  intros Hs. unfold speed, PyStr.split.
  now rewrite (split_acc_all_space s "" Hs).
Qed.

Lemma split_lead_word (lead tok rest : string) :
  all_space lead = true -> tok <> "" -> no_space tok = true ->
  (rest = "" \/ exists c r, rest = String c r /\ PyStr.is_space c = true) ->
  exists k, PyStr.split (lead ++ tok ++ rest) = tok :: k.
Proof.
  intros Hl Hne Hn Hr. unfold PyStr.split.
  rewrite (split_acc_lead lead _ "" Hl eq_refl).
  rewrite (split_acc_word tok "" rest Hn). simpl.
  apply String.eqb_neq in Hne.
  destruct Hr as [->|(c & r & -> & Hc)]; simpl.
  - unfold PyStr.flush. rewrite Hne. eauto.
  - rewrite Hc. unfold PyStr.flush. rewrite Hne. eauto.
Qed.

End SpeedFacts.

(** X3.  A 'True Speed' cell that is missing, empty or all whitespace makes
    line 34 raise, so that preprocessing fails for the whole frame, whatever
    the other rows hold. *)
Theorem blank_speed_cell_halts (data : list RawRow) (d : RawRow) :
  In d data ->
  True_Speed d = Missing
  \/ (exists s, True_Speed d = Str s /\ all_space s = true) ->
  speed (True_Speed d) = None /\ preprocess data = None.
Proof.
  intros Hd Hb.
  assert (Hs : speed (True_Speed d) = None).
  { destruct Hb as [->|(s & -> & Hs)]; [reflexivity | now apply speed_blank]. }
  split; [exact Hs|].
  apply preprocess_none_iff, Exists_exists. eauto.
Qed.

(** X4.  Whitespace before the number is skipped and a unit is not needed:
    for a cell made of whitespace, a word [tok], and then nothing or
    whitespace followed by anything, S is [float(tok)] divided by 1000. *)
Theorem speed_skips_leading_space_and_unit (lead tok rest : string) :
  all_space lead = true -> tok <> "" -> no_space tok = true ->
  (rest = "" \/ exists c r, rest = String c r /\ PyStr.is_space c = true) ->
  speed (Str (lead ++ tok ++ rest))
  = option_map (fun v => div v thousand) (PyStr.float tok).
Proof.
  intros Hl Hne Hn Hr. unfold speed.
  destruct (split_lead_word lead tok rest Hl Hne Hn Hr) as (k & ->).
  destruct (PyStr.float tok); reflexivity.
Qed.

(** ** The factors and the score *)

Section FactorFacts.
Local Open Scope Qc_scope.

Lemma cap1_nonneg (x : Qc) : 0 <= x -> 0 <= cap1 x.
Proof.
  intros Hx. unfold cap1. destruct (Qclt_le_dec 1 x); [|exact Hx].
  unfold Qcle; vm_compute; discriminate.
Qed.

Lemma Qcminus_le_self (x y : Qc) : 0 <= y -> x - y <= x.
Proof.
  intros Hy. unfold Qcminus. rewrite <- (Qcplus_0_r x) at 2.
  apply Qcplus_le_compat; [apply Qcle_refl|].
  replace 0 with (- 0) by reflexivity. now apply Qcopp_le_compat.
Qed.

Lemma ratio_in_unit (data : list RawRow) (f : RawRow -> num) (d : RawRow) :
  (forall d', In d' data -> nonneg (f d')) ->
  positive (series_max (map f data)) ->
  In d data ->
  in_unit_interval (div (f d) (series_max (map f data))).
Proof.
  intros Hn Hp Hd.
  destruct (max_ratio_shape data f Hn Hp) as (m & Em & Hm & _ & Hle).
  destruct (nonneg_fin _ (Hn d Hd)) as (x & Ex & Hx).
  exists (x / m). rewrite Em, Ex. split; [now apply div_fin|]. split.
  - now apply Qcdiv_nonneg.
  - apply Qcdiv_le_1; [exact Hm | now apply (Hle d)].
Qed.

Lemma one_minus_C_unit (d : RawRow) :
  nonneg (Churn d) -> positive (Port_Use d) ->
  in_unit_interval (Spec.one_minus_C d).
Proof.
  intros Hc Hp.
  destruct (nonneg_fin _ Hc) as (c & Ec & Hc0).
  destruct (positive_fin _ Hp) as (p & Ep & Hp0).
  exists (1 - cap1 (c / p)). split; [now apply one_minus_C_fin|]. split.
  - apply one_minus_cap1_nonneg.
  - apply Qcminus_le_self, cap1_nonneg. now apply Qcdiv_nonneg.
Qed.

Lemma add_nan_r (a : num) : add a NaN = NaN.
Proof. destruct a; reflexivity. Qed.

Lemma mul_nan_r (a : num) : mul a NaN = NaN.
Proof. destruct a; reflexivity. Qed.

Lemma raw_nan_of_ratio (data : list RawRow) (d : RawRow) :
  Spec.one_minus_C d = NaN -> Spec.PotentialScoreRaw data d = NaN.
Proof.
  intros E. unfold Spec.PotentialScoreRaw. rewrite E, mul_nan_r, add_nan_r.
  reflexivity.
Qed.

Lemma raw_nan_of_H (data : list RawRow) (d : RawRow) :
  Spec.H data d = NaN -> Spec.PotentialScoreRaw data d = NaN.
Proof. intros E. unfold Spec.PotentialScoreRaw. rewrite E. reflexivity. Qed.

Lemma score_nan_of_raw (data : list RawRow) (d : RawRow) :
  Spec.PotentialScoreRaw data d = NaN -> Spec.PotentialScore data d = NaN.
Proof. intros E. unfold Spec.PotentialScore. rewrite E. reflexivity. Qed.

Lemma nan_score_never_shown (rows : list Row) (r : Row)
    (p d s h : selection) (na ps ut ms : range) :
  Potential_Score r = NaN -> ~ In r (update_map rows p d s h na ps ut ms).
Proof.
  intros E Hin. rewrite update_map_filter in Hin. apply filter_In in Hin.
  destruct Hin as [_ Hm]. rewrite matches_nan in Hm; [discriminate|].
  unfold has_nan_metric. rewrite E. simpl. now rewrite orb_true_r.
Qed.

Lemma series_max_zeros (l : list num) :
  l <> [] -> (forall a, In a l -> a = zero) -> series_max l = zero.
Proof.
  induction l as [|a t IH]; intros Hne Hz; [congruence|].
  rewrite (Hz a (or_introl eq_refl)). destruct t as [|b t'].
  - reflexivity.
  - change (series_max (zero :: b :: t')) with (max2 zero (series_max (b :: t'))).
    rewrite IH; [reflexivity | discriminate |].
    intros c Hc. apply Hz. now right.
Qed.

End FactorFacts.

(** X5.  Under the precondition of the amended C2 (finite inputs at least
    zero, Port Use above zero in every row, positive maxima), the columns
    'H', 'I', '1-C' and 'M' of every row hold a number of [0, 1]. *)
Theorem factors_in_unit_interval (data : list RawRow) (rows : list Row)
    (r : Row) :
  well_scaled data -> preprocess data = Some rows -> In r rows ->
  in_unit_interval (fac_H r) /\ in_unit_interval (fac_I r)
  /\ in_unit_interval (fac_1_C r) /\ in_unit_interval (fac_M r).
Proof.
  intros (Hn & Hr & Hh & Hi & Hm) E Hin.
  rewrite (preprocess_rows data rows E) in Hin.
  apply in_map_iff in Hin. destruct Hin as (d & <- & Hd). simpl.
  rewrite Forall_forall in Hn, Hr.
  split; [|split; [|split]].
  - apply ratio_in_unit; auto. intros d' Hd'. apply (Hn d' Hd').
  - apply ratio_in_unit; auto. intros d' Hd'. apply (Hn d' Hd').
  - destruct (Hn d Hd) as (_ & _ & Hc & _).
    apply one_minus_C_unit; [exact Hc | exact (Hr d Hd)].
  - apply ratio_in_unit; auto. intros d' Hd'. apply (Hn d' Hd').
Qed.

(** X6.  A row with Churn = Port Use = 0 gets the 'Potential Score' NaN,
    whatever the rest of the frame holds, and is in no frame that
    [update_map] draws, whatever is selected. *)
Theorem zero_ports_row_never_shown (data : list RawRow) (rows : list Row)
    (r : Row) :
  preprocess data = Some rows -> In r rows ->
  Churn (base r) = zero -> Port_Use (base r) = zero ->
  Potential_Score r = NaN
  /\ forall p d s h na ps ut ms, ~ In r (update_map rows p d s h na ps ut ms).
Proof.
  intros E Hin Hc Hp.
  assert (Hs : Potential_Score r = NaN).
  { rewrite (preprocess_rows data rows E) in Hin.
    apply in_map_iff in Hin. destruct Hin as (d & <- & Hd). simpl in *.
    apply score_nan_of_raw, raw_nan_of_ratio.
    unfold Spec.one_minus_C, Spec.RawChurnRatio. rewrite Hc, Hp. reflexivity. }
  split; [exact Hs|]. intros. now apply nan_score_never_shown.
Qed.

(** X7.  When every Household is 0, every 'Potential Score' is NaN (H is
    0/0) and [update_map] draws the empty frame for all inputs. *)
Theorem no_households_empty_map (data : list RawRow) (rows : list Row) :
  (forall d, In d data -> Household d = zero) ->
  preprocess data = Some rows ->
  (forall r, In r rows -> Potential_Score r = NaN)
  /\ forall p d s h na ps ut ms, update_map rows p d s h na ps ut ms = [].
Proof.
  intros Hz E.
  assert (Hs : forall r, In r rows -> Potential_Score r = NaN).
  { intros r Hin. rewrite (preprocess_rows data rows E) in Hin.
    apply in_map_iff in Hin. destruct Hin as (d & <- & Hd). simpl.
    apply score_nan_of_raw, raw_nan_of_H. unfold Spec.H.
    rewrite (Hz d Hd), series_max_zeros; [reflexivity | |].
    - destruct data; [contradiction | discriminate].
    - intros a Ha. apply in_map_iff in Ha. destruct Ha as (d' & <- & Hd').
      now apply Hz. }
  split; [exact Hs|]. intros.
  rewrite update_map_filter. apply filter_none. intros r Hr.
  apply matches_nan. unfold has_nan_metric. rewrite (Hs r Hr). simpl.
  now rewrite orb_true_r.
Qed.

(** ** The order of the rows *)

(** Comparisons of rationals, decided case by case. *)
Ltac qc_order :=
  try discriminate; try congruence;
  repeat match goal with
  | H : (_ ?= _)%Qc = Eq |- _ => apply Qceq_alt in H; subst
  | H : (_ ?= _)%Qc = Lt |- _ => apply Qclt_alt in H
  | H : (_ ?= _)%Qc = Gt |- _ => apply Qcgt_alt in H
  end;
  unfold Qclt in *;
  try reflexivity; try discriminate; try (exfalso; lra).

Section MaxFacts.

Lemma max2_swap (a b x : num) : max2 a (max2 b x) = max2 b (max2 a x).
Proof.
  destruct a as [p| | |], b as [q| | |], x as [r| | |];
    unfold max2, le; try reflexivity;
    repeat match goal with
    | |- context [(?u ?= ?v)%Qc] => destruct (u ?= v)%Qc eqn:?; cbn
    end;
    qc_order.
Qed.

Lemma fold_right_swap {A B : Type} (f : A -> B -> B) (z : B) (l l' : list A) :
  (forall a b x, f a (f b x) = f b (f a x)) ->
  Permutation l l' -> fold_right f z l = fold_right f z l'.
Proof.
  intros Hf. induction 1 as [|a l l' _ IH|a b l|l1 l2 l3 _ IH1 _ IH2]; simpl.
  - reflexivity.
  - now rewrite IH.
  - apply Hf.
  - now rewrite IH1.
Qed.

Lemma series_max_perm (l l' : list num) :
  Permutation l l' -> series_max l = series_max l'.
Proof. apply fold_right_swap, max2_swap. Qed.

Lemma spec_raw_perm (data data' : list RawRow) (d : RawRow) :
  Permutation data data' ->
  Spec.PotentialScoreRaw data d = Spec.PotentialScoreRaw data' d.
Proof.
  intros HP. unfold Spec.PotentialScoreRaw, Spec.H, Spec.I, Spec.M.
  rewrite (series_max_perm _ _ (Permutation_map Household HP)).
  rewrite (series_max_perm _ _ (Permutation_map Install HP)).
  rewrite (series_max_perm _ _ (Permutation_map Market_Share_True HP)).
  reflexivity.
Qed.

Lemma spec_row_perm (data data' : list RawRow) (d : RawRow) :
  Permutation data data' -> Spec.row data d = Spec.row data' d.
Proof.
  intros HP. unfold Spec.row, Spec.PotentialScore, Spec.H, Spec.I, Spec.M.
  rewrite (series_max_perm _ _ (Permutation_map Household HP)).
  rewrite (series_max_perm _ _ (Permutation_map Install HP)).
  rewrite (series_max_perm _ _ (Permutation_map Market_Share_True HP)).
  rewrite (spec_raw_perm data data' d HP).
  rewrite (series_max_perm (map (Spec.PotentialScoreRaw data) data)
             (map (Spec.PotentialScoreRaw data') data')); [reflexivity|].
  rewrite (map_ext _ _ (fun x => spec_raw_perm data data' x HP)).
  now apply Permutation_map.
Qed.

End MaxFacts.

(** X8.  The derived columns of a row do not depend on the order of the
    rows: preprocessing a frame with the same rows in another order succeeds
    as well and gives the same rows, in that other order. *)
Theorem scores_independent_of_row_order (data data' : list RawRow)
    (rows : list Row) :
  Permutation data data' -> preprocess data = Some rows ->
  exists rows',
    preprocess data' = Some rows'
    /\ Permutation rows rows'.
Proof.
  intros HP E. pose proof (preprocess_parses data rows E) as Hp.
  assert (Hp' : speeds_parse data').
  { unfold speeds_parse in *. now apply (Permutation_Forall HP). }
  exists (map (Spec.row data') data').
  rewrite (preprocess_rows data rows E).
  split; [now apply preprocess_total|].
  rewrite (map_ext _ _ (fun x => spec_row_perm data data' x HP)).
  now apply Permutation_map.
Qed.

(** ** The score grows with the factors *)

Section ScoreOrder.
Local Open Scope Qc_scope.

Lemma Qcmult_le_compat_l (x y z : Qc) : 0 <= z -> x <= y -> z * x <= z * y.
Proof.
  intros Hz Hxy. rewrite (Qcmult_comm z x), (Qcmult_comm z y).
  now apply Qcmult_le_compat_r.
Qed.

Variable data : list RawRow.
Hypothesis scaled : well_scaled data.

Lemma factors_fin (d : RawRow) :
  In d data ->
  exists h i c m s,
    Spec.H data d = Fin h /\ Spec.I data d = Fin i
    /\ Spec.one_minus_C d = Fin c /\ Spec.M data d = Fin m
    /\ Spec.S d = Fin s.
Proof.
  intros Hd. destruct scaled as (Hn & Hr & Hh & Hi & Hm).
  rewrite Forall_forall in Hn, Hr.
  assert (Hf : forall f, (forall d', In d' data -> nonneg (f d')) ->
                 positive (series_max (map f data)) ->
                 exists q, div (f d) (series_max (map f data)) = Fin q).
  { intros f Hfn Hfp.
    destruct (ratio_in_unit data f d Hfn Hfp Hd) as (q & Eq & _). eauto. }
  destruct (Hf Household) as (h & Eh); auto.
  { intros d' Hd'. apply (Hn d' Hd'). }
  destruct (Hf Install) as (i & Ei); auto.
  { intros d' Hd'. apply (Hn d' Hd'). }
  destruct (Hf Market_Share_True) as (m & Em); auto.
  { intros d' Hd'. apply (Hn d' Hd'). }
  destruct (Hn d Hd) as (_ & _ & Hc & Hp & _ & s & Es & Hs).
  destruct (one_minus_C_unit d Hc (Hr d Hd)) as (c & Ec & _).
  destruct (nonneg_fin _ Hs) as (s' & -> & _).
  exists h, i, c, m, s'. unfold Spec.H, Spec.I, Spec.M, Spec.S, speed_or_nan.
  rewrite Es. auto.
Qed.

Lemma score_shape :
  exists mr, 0 < mr /\
    forall d h i c m s, In d data ->
      Spec.H data d = Fin h -> Spec.I data d = Fin i ->
      Spec.one_minus_C d = Fin c -> Spec.M data d = Fin m ->
      Spec.S d = Fin s ->
      Spec.PotentialScore data d
      = Fin ((qc 40 100 * h + qc 25 100 * i + qc 20 100 * c + qc 5 100 * m
              + qc 10 100 * s) / mr * qc 100 1).
Proof.
  destruct scaled as (Hn & Hr & Hh & Hi & Hm).
  destruct (raw_max_shape data Hn Hr Hh Hi Hm) as (mr & Emr & Hmr & _ & _).
  exists mr. split; [exact Hmr|].
  intros d h i c m s Hd Eh Ei Ec Em Es.
  unfold Spec.PotentialScore. rewrite Emr.
  unfold Spec.PotentialScoreRaw. rewrite Eh, Ei, Ec, Em, Es.
  unfold W1, W2, W3, W4, W5. cbn [mul add].
  rewrite div_fin by exact Hmr. reflexivity.
Qed.

End ScoreOrder.

(** X9.  Under the precondition of the amended C2: when a row is at least
    another row in each of the five factor columns, its 'Potential Score' is
    at least the other's. *)
Theorem score_monotone_in_factors (data : list RawRow) (rows : list Row)
    (r r' : Row) :
  well_scaled data -> preprocess data = Some rows ->
  In r rows -> In r' rows ->
  le (fac_H r') (fac_H r) = true -> le (fac_I r') (fac_I r) = true ->
  le (fac_1_C r') (fac_1_C r) = true -> le (fac_M r') (fac_M r) = true ->
  le (fac_S r') (fac_S r) = true ->
  le (Potential_Score r') (Potential_Score r) = true.
Proof.
  intros Hs E Hr Hr'.
  rewrite (preprocess_rows data rows E) in Hr, Hr'.
  apply in_map_iff in Hr. destruct Hr as (d & <- & Hd).
  apply in_map_iff in Hr'. destruct Hr' as (d' & <- & Hd'). simpl.
  destruct (factors_fin data Hs d Hd) as (h & i & c & m & s & Eh & Ei & Ec & Em & Es).
  destruct (factors_fin data Hs d' Hd')
    as (h' & i' & c' & m' & s' & Eh' & Ei' & Ec' & Em' & Es').
  destruct (score_shape data Hs) as (mr & Hmr & Hshape).
  rewrite (Hshape d h i c m s), (Hshape d' h' i' c' m' s'); auto.
  rewrite Eh, Ei, Ec, Em, Es, Eh', Ei', Ec', Em', Es'.
  rewrite !le_fin. intros Lh Li Lc Lm Ls.
  destruct weights_nonneg as (H1 & H2 & H3 & H4 & H5).
  apply Qcmult_le_compat_r; [|unfold Qcle; vm_compute; discriminate].
  unfold Qcdiv. apply Qcmult_le_compat_r;
    [|apply Qclt_le_weak, Qcinv_pos, Hmr].
  repeat apply Qcplus_le_compat; now apply Qcmult_le_compat_l.
Qed.

(** ** Narrowing and composing the filters *)

Section NarrowFacts.

Lemma num_le_trans (a b c : num) :
  le a b = true -> le b c = true -> le a c = true.
Proof.
  destruct a as [p| | |], b as [q| | |], c as [r| | |];
    unfold le; try reflexivity; try discriminate.
  destruct (p ?= q)%Qc eqn:?, (q ?= r)%Qc eqn:?, (p ?= r)%Qc eqn:?;
    intros; qc_order.
Qed.

Lemma eq_constraint_refines (col : Row -> cell) (v0 v : selection) (r : Row) :
  refines v0 v -> eq_constraint col v r = true -> eq_constraint col v0 r = true.
Proof.
  intros [Hu| ->] Hv; [|exact Hv].
  unfold eq_constraint. destruct v0 as [t|]; [now rewrite Hu | reflexivity].
Qed.

Lemma in_range_within (x : num) (rg' rg : range) :
  within rg' rg -> in_range x rg' = true -> in_range x rg = true.
Proof.
  intros [Hlo Hhi]. unfold in_range, ge. rewrite !andb_true_iff.
  intros [H1 H2]. split.
  - now apply (num_le_trans _ (fst rg')).
  - now apply (num_le_trans _ (snd rg')).
Qed.

Lemma matches_narrower (p0 d0 s0 h0 p d s h : selection)
    (na ps ut ms na' ps' ut' ms' : range) (r : Row) :
  refines p0 p -> refines d0 d -> refines s0 s -> refines h0 h ->
  within na' na -> within ps' ps -> within ut' ut -> within ms' ms ->
  matches p d s h na' ps' ut' ms' r = true ->
  matches p0 d0 s0 h0 na ps ut ms r = true.
Proof.
  intros Rp Rd Rs Rh Wn Wp Wu Wm. unfold matches.
  rewrite !andb_true_iff.
  intros [[[[[[[E1 E2] E3] E4] E5] E6] E7] E8].
  repeat split;
    first [ eapply eq_constraint_refines; eassumption
          | eapply in_range_within; eassumption ].
Qed.

Lemma In_options_of (c : list cell) (o : dropdown_option) :
  In o (options_of c) <-> exists v, In v c /\ o = mkOption v v.
Proof.
  unfold options_of, unique. rewrite in_map_iff. split.
  - intros (v & <- & Hv). apply unique_from_In in Hv. exists v. tauto.
  - intros (v & Hv & ->). exists v. split; [reflexivity|].
    apply unique_from_In. auto.
Qed.

Lemma options_of_nonempty (c : list cell) : c <> [] -> options_of c <> [].
Proof. destruct c as [|x c]; [congruence | discriminate]. Qed.

Lemma options_of_incl (f g : Row -> bool) (col : Row -> cell)
    (data : list Row) (o : dropdown_option) :
  (forall r, f r = true -> g r = true) ->
  In o (options_of (map col (filter f data))) ->
  In o (options_of (map col (filter g data))).
Proof.
  intros Hfg. rewrite !In_options_of. intros (v & Hv & ->).
  exists v. split; [|reflexivity].
  apply in_map_iff in Hv. destruct Hv as (r & <- & Hr).
  apply filter_In in Hr. destruct Hr as [Hr Hf].
  apply in_map, filter_In. auto.
Qed.

Lemma eq_constraint_of_value (col : Row -> cell) (v : string) (r : Row) :
  col r = Str v -> eq_constraint col (Some v) r = true.
Proof.
  intros E. unfold eq_constraint. destruct (truthy (Some v)); [|reflexivity].
  rewrite E. simpl. apply String.eqb_refl.
Qed.

End NarrowFacts.

(** X10.  Setting selections that were unset and narrowing the ranges only
    removes rows: the new result is the old result filtered once more, so
    every row of it was in the old result, in the same order. *)
Theorem narrowing_refilters (data : list Row)
    (p0 d0 s0 h0 p d s h : selection)
    (na ps ut ms na' ps' ut' ms' : range) :
  refines p0 p -> refines d0 d -> refines s0 s -> refines h0 h ->
  within na' na -> within ps' ps -> within ut' ut -> within ms' ms ->
  update_map data p d s h na' ps' ut' ms'
  = filter (matches p d s h na' ps' ut' ms')
           (update_map data p0 d0 s0 h0 na ps ut ms)
  /\ forall r, In r (update_map data p d s h na' ps' ut' ms') ->
               In r (update_map data p0 d0 s0 h0 na ps ut ms).
Proof.
  intros Rp Rd Rs Rh Wn Wp Wu Wm.
  assert (Hm : forall r, matches p d s h na' ps' ut' ms' r = true ->
                         matches p0 d0 s0 h0 na ps ut ms r = true).
  { intros r. now apply matches_narrower. }
  split.
  - rewrite !update_map_filter, filter_filter. apply filter_ext. intros r.
    destruct (matches p d s h na' ps' ut' ms' r) eqn:E.
    + now rewrite (Hm r E).
    + now rewrite andb_false_r.
  - intros r. rewrite !update_map_filter, !filter_In. intros [Hr E]. auto.
Qed.

(** X11.  Selecting more can only shorten the Sub-district and the Happy
    Block option lists: an option offered under a selection is offered as
    well under the selection with some of its levels unset. *)
Theorem options_shrink_with_selection (data : list Row)
    (p0 d0 s0 p d s : selection) (o : dropdown_option) :
  refines p0 p -> refines d0 d -> refines s0 s ->
  (In o (update_subdistrict_filter data p d) ->
   In o (update_subdistrict_filter data p0 d0))
  /\ (In o (update_happyblock_filter data p d s) ->
      In o (update_happyblock_filter data p0 d0 s0)).
Proof.
  intros Rp Rd Rs. split.
  - rewrite !subdistrict_options_filter. apply options_of_incl.
    intros r. unfold above_subdistrict, above_district.
    rewrite !andb_true_iff. intros [E1 E2].
    split; eapply eq_constraint_refines; eassumption.
  - rewrite !happyblock_options_filter. apply options_of_incl.
    intros r. unfold above_happyblock, above_subdistrict, above_district.
    rewrite !andb_true_iff. intros [[E1 E2] E3].
    repeat split; eapply eq_constraint_refines; eassumption.
Qed.

(** X12.  An option that is offered can be selected without emptying the
    next list: a Province of the layout's dropdown gives a District list
    that is not empty, a District offered under the Province gives a
    Sub-district list that is not empty, and a Sub-district offered under
    both gives a Happy Block list that is not empty. *)
Theorem offered_option_is_selectable (data : list Row) (p d : selection) :
  (forall o v, value o = Str v -> v <> "" ->
     In o (Layout.province_options data) ->
     update_district_filter data (Some v) <> [])
  /\ (forall o v, value o = Str v ->
        In o (update_district_filter data p) ->
        update_subdistrict_filter data p (Some v) <> [])
  /\ (forall o v, value o = Str v ->
        In o (update_subdistrict_filter data p d) ->
        update_happyblock_filter data p d (Some v) <> []).
Proof.
  split; [|split].
  - intros o v Hv Hne. unfold Layout.province_options. rewrite In_options_of.
    intros (c & Hc & ->). simpl in Hv. subst c.
    apply in_map_iff in Hc. destruct Hc as (r & Er & Hr).
    assert (Ht : truthy (Some v) = true).
    { simpl. apply negb_true_iff, String.eqb_neq, Hne. }
    rewrite (district_options_filter data (Some v) Ht).
    apply options_of_nonempty. intros E. apply map_eq_nil in E.
    assert (Hin : In r (filter (eq_constraint (get Province) (Some v)) data)).
    { apply filter_In. split; [exact Hr | now apply eq_constraint_of_value]. }
    rewrite E in Hin. exact Hin.
  - intros o v Hv Hin.
    assert (Ht : truthy p = true).
    { destruct (truthy p) eqn:Ht; [reflexivity|].
      unfold update_district_filter in Hin.
      destruct p as [t|]; [rewrite Ht in Hin|]; contradiction. }
    rewrite (district_options_filter data p Ht) in Hin.
    apply In_options_of in Hin. destruct Hin as (c & Hc & ->).
    simpl in Hv. subst c.
    apply in_map_iff in Hc. destruct Hc as (r & Er & Hr).
    apply filter_In in Hr. destruct Hr as [Hr Hp].
    rewrite subdistrict_options_filter.
    apply options_of_nonempty. intros E. apply map_eq_nil in E.
    assert (Hin : In r (filter (above_subdistrict p (Some v)) data)).
    { apply filter_In. split; [exact Hr|].
      unfold above_subdistrict, above_district.
      now rewrite Hp, eq_constraint_of_value. }
    rewrite E in Hin. exact Hin.
  - intros o v Hv. rewrite subdistrict_options_filter, In_options_of.
    intros (c & Hc & ->). simpl in Hv. subst c.
    apply in_map_iff in Hc. destruct Hc as (r & Er & Hr).
    apply filter_In in Hr. destruct Hr as [Hr Hp].
    rewrite happyblock_options_filter.
    apply options_of_nonempty. intros E. apply map_eq_nil in E.
    assert (Hin : In r (filter (above_happyblock p d (Some v)) data)).
    { apply filter_In. split; [exact Hr|].
      unfold above_happyblock. now rewrite Hp, eq_constraint_of_value. }
    rewrite E in Hin. exact Hin.
Qed.

(** X13.  Filtering a filtered frame is filtering by both sets of inputs at
    once; the order of the two filters does not matter, and filtering again
    with the same inputs changes nothing. *)
Theorem update_map_composes (data : list Row)
    (p d s h p' d' s' h' : selection)
    (na ps ut ms na' ps' ut' ms' : range) :
  update_map (update_map data p d s h na ps ut ms) p' d' s' h' na' ps' ut' ms'
  = filter (fun r => matches p d s h na ps ut ms r
                     && matches p' d' s' h' na' ps' ut' ms' r) data
  /\ update_map (update_map data p d s h na ps ut ms)
                p' d' s' h' na' ps' ut' ms'
     = update_map (update_map data p' d' s' h' na' ps' ut' ms')
                  p d s h na ps ut ms
  /\ update_map (update_map data p d s h na ps ut ms) p d s h na ps ut ms
     = update_map data p d s h na ps ut ms.
Proof.
  rewrite !update_map_filter, !filter_filter. split; [reflexivity|]. split.
  - apply filter_ext. intros r. apply andb_comm.
  - apply filter_ext. intros r. now destruct (matches p d s h na ps ut ms r).
Qed.

(** ** The slider marks and the start of the process *)

Section LayoutFacts.

Lemma py_range_In (a b s k : Z) :
  (0 < s)%Z ->
  In k (Layout.py_range a b s) <-> (a <= k < b /\ (k - a) mod s = 0)%Z.
Proof.
  intros Hs. unfold Layout.py_range. destruct (a <? b)%Z eqn:Hab.
  - apply Z.ltb_lt in Hab. rewrite in_map_iff. split.
    + intros (i & <- & Hi). apply in_seq in Hi.
      assert (Hq : (0 <= (b - a - 1) / s)%Z) by (apply Z.div_pos; lia).
      assert (Hi' : (Z.of_nat i <= (b - a - 1) / s)%Z) by lia.
      assert (Hm : (Z.of_nat i * s <= b - a - 1)%Z).
      { apply Z.le_trans with ((b - a - 1) / s * s)%Z.
        - apply Z.mul_le_mono_nonneg_r; lia.
        - rewrite Z.mul_comm. apply Z.mul_div_le. lia. }
      split; [nia|].
      replace (a + Z.of_nat i * s - a)%Z with (Z.of_nat i * s)%Z by lia.
      apply Z_mod_mult.
    + intros [[Hlo Hhi] Hmod].
      assert (Hk : (k - a = s * ((k - a) / s))%Z).
      { apply Z.div_exact; lia. }
      assert (Hq0 : (0 <= (k - a) / s)%Z) by (apply Z.div_pos; lia).
      assert (Hq1 : ((k - a) / s <= (b - a - 1) / s)%Z).
      { apply Z.div_le_mono; lia. }
      exists (Z.to_nat ((k - a) / s)). split.
      * rewrite Z2Nat.id by lia. lia.
      * apply in_seq. lia.
  - apply Z.ltb_ge in Hab. split; [intros [] | lia].
Qed.

Lemma series_min_fin (l : list num) :
  (forall a, In a l -> exists x, a = Fin x) -> l <> [] ->
  exists m, series_min l = Fin m.
Proof.
  induction l as [|a t IH]; intros Hfin Hne; [congruence|].
  destruct (Hfin a (or_introl eq_refl)) as [x ->].
  destruct t as [|b t'].
  - exists x. reflexivity.
  - destruct IH as (m & Hm).
    { intros c Hc. apply Hfin. now right. }
    { discriminate. }
    change (series_min (Fin x :: b :: t'))
      with (min2 (Fin x) (series_min (b :: t'))).
    rewrite Hm. unfold min2. destruct (le (Fin x) (Fin m)); eauto.
Qed.

Lemma series_min_nan (l : list num) :
  (forall a, In a l -> a = NaN) -> series_min l = NaN.
Proof.
  induction l as [|a t IH]; intros Hn; [reflexivity|].
  simpl. rewrite (Hn a (or_introl eq_refl)). simpl.
  apply IH. intros c Hc. apply Hn. now right.
Qed.

End LayoutFacts.

(** X14.  When the Net Add slider can be built, with a = int(min) and
    b = int(max) of the column, its marks are exactly the integers a, a+10,
    a+20, ... up to b, each labelled with its decimal writing, and its
    initial value is the whole range [min, max]. *)
Theorem net_add_marks (data : list Row) (sl : Layout.RangeSlider) :
  Layout.net_add_slider data = Some sl ->
  exists a b,
    Layout.py_int (series_min (map (get Net_Add) data)) = Some a
    /\ Layout.py_int (series_max (map (get Net_Add) data)) = Some b
    /\ (forall k lbl,
          In (k, lbl) (Layout.marks sl)
          <-> (a <= k <= b)%Z /\ ((k - a) mod 10 = 0)%Z
              /\ lbl = Layout.py_str k)
    /\ Layout.slider_value sl = default_net_add_range data
    /\ Layout.slider_value sl = (Layout.slider_min sl, Layout.slider_max sl).
Proof.
  unfold Layout.net_add_slider.
  destruct (Layout.py_int (series_min (map (get Net_Add) data))) as [a|] eqn:Ea;
    [|discriminate].
  destruct (Layout.py_int (series_max (map (get Net_Add) data))) as [b|] eqn:Eb;
    [|discriminate].
  intros [= <-]. exists a, b. simpl.
  split; [reflexivity|]. split; [reflexivity|].
  split; [|split; reflexivity].
  intros k lbl. rewrite in_map_iff. split.
  - intros (i & [= <- <-] & Hi). apply py_range_In in Hi; [|lia].
    split; [lia|]. split; [tauto | reflexivity].
  - intros (Hk & Hm & ->). exists k. split; [reflexivity|].
    apply py_range_In; [lia|]. split; [lia | exact Hm].
Qed.

(** X15.  The layout cannot be built over a frame without a number in
    'Net Add' (an empty frame, or NaN in every row): [int()] raises in line
    86, outside any [try].  Over a frame that is not empty and has a finite
    Net Add in every row the slider is built. *)
Theorem net_add_slider_needs_numbers (data : list Row) :
  ((forall r, In r data -> get Net_Add r = NaN) ->
   Layout.net_add_slider data = None)
  /\ (data <> [] ->
      (forall r, In r data -> exists x, get Net_Add r = Fin x) ->
      exists sl, Layout.net_add_slider data = Some sl).
Proof.
  split.
  - intros Hn. unfold Layout.net_add_slider.
    rewrite series_min_nan; [reflexivity|].
    intros a Ha. apply in_map_iff in Ha. destruct Ha as (r & <- & Hr).
    now apply Hn.
  - intros Hne Hf. unfold Layout.net_add_slider.
    assert (Hfin : forall a, In a (map (get Net_Add) data) -> exists x, a = Fin x).
    { intros a Ha. apply in_map_iff in Ha. destruct Ha as (r & <- & Hr).
      now apply Hf. }
    assert (Hne' : map (get Net_Add) data <> []).
    { intros E. apply map_eq_nil in E. contradiction. }
    destruct (series_min_fin _ Hfin Hne') as (lo & ->).
    destruct (series_max_fin _ Hfin Hne') as (hi & -> & _). simpl. eauto.
Qed.

(** X16.  At the start of the process, given the frame [read_csv] returned:
    a 'True Speed' cell that raises in line 34 ends the process in the
    preprocessing block, after "Dataset loaded successfully." was printed;
    a frame that preprocesses but has no number in 'Net Add' (no row, or NaN
    in every row) raises in the layout, and nothing is served; and the app
    is served only when [read_csv] returned a frame, every 'True Speed'
    cell parsed and the smallest and the largest Net Add have an integer
    part, over a frame that has the loaded rows in their order. *)
Theorem startup_outcomes :
  (forall data,
     Exists (fun d => speed (True_Speed d) = None) data ->
     startup (inr data)
     = ExitedAtPreprocessing ["Dataset loaded successfully."])
  /\ (forall data,
        speeds_parse data -> (forall d, In d data -> Net_Add d = NaN) ->
        startup (inr data) = RaisedInLayout ["Dataset loaded successfully."])
  /\ (forall r out rows l,
        startup r = Serving out rows l ->
        out = ["Dataset loaded successfully."]
        /\ exists data,
             r = inr data /\ map base rows = data /\ speeds_parse data
             /\ exists a b,
                  Layout.py_int (series_min (map Net_Add data)) = Some a
                  /\ Layout.py_int (series_max (map Net_Add data)) = Some b).
Proof.
  split; [|split].
  - intros data Hx. unfold startup. simpl.
    now rewrite (proj2 (preprocess_none_iff data) Hx).
  - intros data Hp Hn. unfold startup. simpl.
    rewrite (preprocess_total data Hp).
    unfold Layout.build, Layout.net_add_slider.
    rewrite series_min_nan; [reflexivity|].
    intros a Ha. apply in_map_iff in Ha. destruct Ha as (r & <- & Hr).
    apply in_map_iff in Hr. destruct Hr as (d & <- & Hd).
    unfold get. simpl. now apply Hn.
  - intros [[e|e]|data] out rows l; unfold startup; simpl; try discriminate.
    destruct (preprocess data) as [rows'|] eqn:E; [|discriminate].
    destruct (Layout.build rows') as [l'|] eqn:El; [|discriminate].
    intros [= <- <- <-]. split; [reflexivity|]. exists data.
    pose proof (preprocess_rows data rows' E) as Er.
    assert (Eb : map base rows' = data).
    { rewrite Er, map_map. simpl. apply map_id. }
    assert (En : map (get Net_Add) rows' = map Net_Add data).
    { rewrite Er, map_map. reflexivity. }
    split; [reflexivity|]. split; [exact Eb|].
    split; [exact (preprocess_parses data rows' E)|].
    unfold Layout.build, Layout.net_add_slider in El. rewrite En in El.
    destruct (Layout.py_int (series_min (map Net_Add data))) as [a|];
      [|discriminate].
    destruct (Layout.py_int (series_max (map Net_Add data))) as [b|];
      [|discriminate].
    eauto.
Qed.

(** ** The further properties on the small dataset *)

Section MoreExamples.

Lemma speed_100 : speed (Str "100 Mbps") = Some (Fin (qc 1 10)).
Proof. vm_compute. do 2 f_equal. apply Qc_is_canon. reflexivity. Qed.

Lemma example_data_scaled : well_scaled example_data.
Proof.
  split; [exact example_data_nonneg|]. split; [|split; [|split]].
  - apply Forall_cons; [|apply Forall_cons; [|apply Forall_nil]];
      vm_compute; reflexivity.
  - vm_compute; reflexivity.
  - vm_compute; reflexivity.
  - vm_compute; reflexivity.
Qed.

Lemma ranked_data_scaled : well_scaled ranked_data.
Proof.
  split; [|split; [|split; [|split]]].
  - apply Forall_cons; [|apply Forall_cons; [|apply Forall_nil]].
    + unfold row_a; eapply mk_nonneg_inputs; try lia; [apply speed_850|].
      unfold nonneg, Qcle; vm_compute; discriminate.
    + unfold row_d; eapply mk_nonneg_inputs; try lia; [apply speed_100|].
      unfold nonneg, Qcle; vm_compute; discriminate.
  - apply Forall_cons; [|apply Forall_cons; [|apply Forall_nil]];
      vm_compute; reflexivity.
  - vm_compute; reflexivity.
  - vm_compute; reflexivity.
  - vm_compute; reflexivity.
Qed.

Lemma ranked_data_parses : speeds_parse ranked_data.
Proof. repeat constructor; intros E; vm_compute in E; discriminate E. Qed.

Lemma row_z_parses : speeds_parse [row_z].
Proof. repeat constructor; intros E; vm_compute in E; discriminate E. Qed.

End MoreExamples.

(** X2 on [example_data]. *)
Lemma preprocess_keeps_loaded_columns_witness :
  map base example_rows = example_data
  /\ List.length example_rows = List.length example_data.
Proof.
  apply (preprocess_keeps_loaded_columns example_data example_rows).
  exact (preprocess_total _ example_data_parses).
Defined.

(** X3 on a frame whose second speed cell holds two spaces. *)
Lemma blank_speed_cell_halts_witness :
  speed (True_Speed row_blank) = None /\ preprocess [row_a; row_blank] = None.
Proof.
  apply (blank_speed_cell_halts [row_a; row_blank] row_blank).
  - right; left; reflexivity.
  - right. exists "  ". split; reflexivity.
Defined.

(** X4 on the cell " 850": a leading space, no unit. *)
Lemma speed_skips_leading_space_and_unit_witness :
  speed (Str (" " ++ "850" ++ ""))
  = option_map (fun v => div v thousand) (PyStr.float "850").
Proof.
  apply (speed_skips_leading_space_and_unit " " "850" "").
  - reflexivity.
  - discriminate.
  - reflexivity.
  - left; reflexivity.
Defined.

(** X5 on the first row of [example_data]. *)
Lemma factors_in_unit_interval_witness :
  in_unit_interval (fac_H (Spec.row example_data row_a))
  /\ in_unit_interval (fac_I (Spec.row example_data row_a))
  /\ in_unit_interval (fac_1_C (Spec.row example_data row_a))
  /\ in_unit_interval (fac_M (Spec.row example_data row_a)).
Proof.
  apply (factors_in_unit_interval example_data example_rows).
  - exact example_data_scaled.
  - exact (preprocess_total _ example_data_parses).
  - left; reflexivity.
Defined.

(** X6 on [degenerate_data], whose second row has no port in use and no
    churn. *)
Lemma zero_ports_row_never_shown_witness :
  Potential_Score (Spec.row degenerate_data row_c) = NaN
  /\ forall p d s h na ps ut ms,
       ~ In (Spec.row degenerate_data row_c)
            (update_map degenerate_rows p d s h na ps ut ms).
Proof.
  apply (zero_ports_row_never_shown degenerate_data degenerate_rows).
  - exact (preprocess_total _ degenerate_data_parses).
  - right; left; reflexivity.
  - reflexivity.
  - reflexivity.
Defined.

(** X7 on the frame of the one row [row_z]. *)
Lemma no_households_empty_map_witness :
  (forall r, In r (map (Spec.row [row_z]) [row_z]) -> Potential_Score r = NaN)
  /\ forall p d s h na ps ut ms,
       update_map (map (Spec.row [row_z]) [row_z]) p d s h na ps ut ms = [].
Proof.
  apply (no_households_empty_map [row_z]).
  - intros d [<-|[]]. reflexivity.
  - exact (preprocess_total _ row_z_parses).
Defined.

(** X8 on [example_data] and its two rows swapped. *)
Lemma scores_independent_of_row_order_witness :
  exists rows',
    preprocess [row_b; row_a] = Some rows' /\ Permutation example_rows rows'.
Proof.
  apply (scores_independent_of_row_order example_data [row_b; row_a]).
  - apply perm_swap.
  - exact (preprocess_total _ example_data_parses).
Defined.

(** X9 on [ranked_data], whose first row is above the second in every
    factor. *)
Lemma score_monotone_in_factors_witness :
  le (Potential_Score (Spec.row ranked_data row_d))
     (Potential_Score (Spec.row ranked_data row_a)) = true.
Proof.
  apply (score_monotone_in_factors ranked_data ranked_rows).
  - exact ranked_data_scaled.
  - exact (preprocess_total _ ranked_data_parses).
  - left; reflexivity.
  - right; left; reflexivity.
  - vm_compute; reflexivity.
  - vm_compute; reflexivity.
  - vm_compute; reflexivity.
  - vm_compute; reflexivity.
  - vm_compute; reflexivity.
Defined.

(** X10 on [example_rows]: a Province and a narrower Net Add range. *)
Lemma narrowing_refilters_witness :
  let na := default_net_add_range example_rows in
  let pc := default_percent_range in
  let na' := (Fin (qc 0 1), Fin (qc 3 1)) in
  update_map example_rows (Some "A") None None None na' pc pc pc
  = filter (matches (Some "A") None None None na' pc pc pc)
           (update_map example_rows None None None None na pc pc pc)
  /\ forall r, In r (update_map example_rows (Some "A") None None None
                       na' pc pc pc) ->
               In r (update_map example_rows None None None None na pc pc pc).
Proof.
  intros na pc na'.
  apply (narrowing_refilters example_rows None None None None
           (Some "A") None None None na pc pc pc na' pc pc pc).
  - left; reflexivity.
  - right; reflexivity.
  - right; reflexivity.
  - right; reflexivity.
  - split; vm_compute; reflexivity.
  - split; vm_compute; reflexivity.
  - split; vm_compute; reflexivity.
  - split; vm_compute; reflexivity.
Defined.

(** X11 on [example_rows]: the options under Province A and District D1
    are among those with nothing selected. *)
Lemma options_shrink_with_selection_witness :
  (In (mkOption (Str "S1") (Str "S1"))
      (update_subdistrict_filter example_rows (Some "A") (Some "D1")) ->
   In (mkOption (Str "S1") (Str "S1"))
      (update_subdistrict_filter example_rows None None))
  /\ (In (mkOption (Str "S1") (Str "S1"))
         (update_happyblock_filter example_rows (Some "A") (Some "D1") None) ->
      In (mkOption (Str "S1") (Str "S1"))
         (update_happyblock_filter example_rows None None None)).
Proof.
  apply (options_shrink_with_selection example_rows None None None
           (Some "A") (Some "D1") None).
  - left; reflexivity.
  - left; reflexivity.
  - right; reflexivity.
Defined.

(** X12 on [example_rows]: the district D1, offered under the province A,
    has sub-districts to offer. *)
Lemma offered_option_is_selectable_witness :
  update_subdistrict_filter example_rows (Some "A") (Some "D1") <> [].
Proof.
  apply (proj1 (proj2 (offered_option_is_selectable example_rows (Some "A") None))
           (mkOption (Str "D1") (Str "D1")) "D1").
  - reflexivity.
  - left; reflexivity.
Defined.

(** X14 on [example_rows], whose Net Add runs from -2 to 3. *)
Lemma net_add_marks_witness :
  exists sl,
    Layout.net_add_slider example_rows = Some sl
    /\ exists a b,
         Layout.py_int (series_min (map (get Net_Add) example_rows)) = Some a
         /\ Layout.py_int (series_max (map (get Net_Add) example_rows)) = Some b
         /\ (forall k lbl,
               In (k, lbl) (Layout.marks sl)
               <-> (a <= k <= b)%Z /\ ((k - a) mod 10 = 0)%Z
                   /\ lbl = Layout.py_str k)
         /\ Layout.slider_value sl = default_net_add_range example_rows
         /\ Layout.slider_value sl
            = (Layout.slider_min sl, Layout.slider_max sl).
Proof.
  destruct (Layout.net_add_slider example_rows) as [sl|] eqn:E;
    [|vm_compute in E; discriminate E].
  exists sl. split; [reflexivity|].
  exact (net_add_marks example_rows sl E).
Defined.
